(** * process_sr.py: the idempotent ingestion pipeline, embedded in Rocq

    The development follows [src/process_sr.py] top to bottom: the name
    sanitizers, [unique_path], the archive expander, the processed-set
    store, the per-item pipeline of [process_folder] and the run lock.

    Conventions of the embedding.
    - A Python [str] is a [list ascii]; a character is read as its code
      point in the range 0..255 (the Latin-1 block of Unicode), and the
      character classes below are the ones CPython uses on that range.
    - A [pathlib.Path] is the list of its components.
    - The file system is a finite map from paths to nodes.
    - Calls into Outlook (COM) are fallible; each mail item carries the
      outcome of the calls made on it.
    - The operating system may refuse to make a directory, to open a
      file for writing or to remove a file, and a member of an archive
      may fail to open or to read; the call then raises, and the
      handlers of the program decide what comes of it. *)

From Stdlib Require Import Ascii String.
From stdpp Require Import gmap strings list fin_maps sorting pretty.
From Stdlib Require Import QArith.

Set Default Proof Using "Type".
Local Close Scope Q_scope.
Local Open Scope char_scope.

(** ** Strings *)

Abbreviation str := (list ascii).

(** A literal: [s!"abc"] is the [str] with the characters a, b, c. *)
Notation "s! x" := (list_ascii_of_string x) (at level 1, format "s! x").

Definition code (c : ascii) : N := N_of_ascii c.

Definition between (lo hi : N) (c : ascii) : bool :=
  ((lo <=? code c) && (code c <=? hi))%N.

(** [str.isspace] on one character; also the class [\s] of [re]. *)
Definition isspace (c : ascii) : bool :=
  between 9 13 c || between 28 32 c || (code c =? 133)%N || (code c =? 160)%N.

(** The class [\d] of [re]: decimal digits. *)
Definition isdecimal (c : ascii) : bool := between 48 57 c.

(** The class [\w] of [re]: alphanumeric characters and the underscore. *)
Definition isword (c : ascii) : bool :=
  between 48 57 c || between 65 90 c || between 97 122 c || (code c =? 95)%N
  || (code c =? 170)%N || between 178 179 c || (code c =? 181)%N
  || between 185 186 c || between 188 190 c || between 192 214 c
  || between 216 246 c || between 248 255 c.

(** [str.lower] on one character of the range 0..255, where it maps
    every character to one character. *)
Definition lower_char (c : ascii) : ascii :=
  if between 65 90 c || (between 192 222 c && negb (code c =? 215)%N)
  then ascii_of_N (code c + 32) else c.

(** [str.lower] *)
Definition lower (s : str) : str := map lower_char s.

(** [str.endswith] *)
Definition endswith (s suffix : str) : bool :=
  bool_decide (drop (length s - length suffix) s = suffix).

(** [str.lstrip()], [str.rstrip()] and [str.strip()] with a set of characters
    given as a predicate; without an argument Python strips [isspace]. *)
Fixpoint lstrip (p : ascii → bool) (s : str) : str :=
  match s with
  | c :: t => if p c then lstrip p t else s
  | [] => []
  end.

Definition rstrip (p : ascii → bool) (s : str) : str :=
  reverse (lstrip p (reverse s)).

Definition strip (p : ascii → bool) (s : str) : str :=
  rstrip p (lstrip p s).

(** [x or fallback] on strings: the empty string is falsy. *)
Definition or_else (s fallback : str) : str :=
  match s with [] => fallback | _ => s end.

(** ** Regular expressions

    The fragment of [re] that the two patterns of the program use, under
    the flag [re.I] with which both are compiled. A configuration is the
    character before the current position ([None] at the start of the
    subject) and the rest of the subject; [re_match r cfg] lists the
    configurations at which a match of [r] begun at [cfg] can end, in the
    order in which the backtracking matcher tries them. *)

Inductive regex :=
| Eps
| Bol                         (* ^  *)
| WordB                       (* \b *)
| Lit (c : ascii)             (* a literal, compared ignoring case *)
| Cls (p : ascii → bool)      (* a class: \s, \d *)
| Cat (r1 r2 : regex)
| Opt (r : regex)             (* r? *)
| Star (r : regex).           (* r* *)

Definition Plus (r : regex) : regex := Cat r (Star r).

(** [r{n,}] *)
Fixpoint AtLeast (n : nat) (r : regex) : regex :=
  match n with
  | 0 => Star r
  | S k => Cat r (AtLeast k r)
  end.

Fixpoint Seq (rs : list regex) : regex :=
  match rs with
  | [] => Eps
  | r :: rs' => Cat r (Seq rs')
  end.

Definition config : Type := option ascii * str.

Definition word_before (cfg : config) : bool :=
  match cfg.1 with Some c => isword c | None => false end.

Definition word_after (cfg : config) : bool :=
  match cfg.2 with c :: _ => isword c | [] => false end.

Definition step_if (ok : ascii → bool) (cfg : config) : list config :=
  match cfg.2 with
  | c :: t => if ok c then [(Some c, t)] else []
  | [] => []
  end.

Definition shorter (cfg cfg' : config) : bool :=
  bool_decide (length cfg'.2 < length cfg.2).

(** The iterations of a starred expression whose body matches as [m];
    every iteration consumes input, so that [fuel], the length of the
    input, is never exhausted before the input is. *)
Fixpoint star_iter (m : config → list config) (fuel : nat) (cfg : config)
    : list config :=
  match fuel with
  | 0 => [cfg]
  | S fuel' =>
      (filter (λ cfg', shorter cfg cfg') (m cfg) ≫= star_iter m fuel') ++ [cfg]
  end.

Fixpoint re_match (r : regex) : config → list config :=
  match r with
  | Eps => λ cfg, [cfg]
  | Bol => λ cfg, match cfg.1 with None => [cfg] | Some _ => [] end
  | WordB => λ cfg, if xorb (word_before cfg) (word_after cfg) then [cfg] else []
  | Lit c => step_if (λ x, bool_decide (lower_char x = lower_char c))
  | Cls p => step_if p
  | Cat r1 r2 => λ cfg, re_match r1 cfg ≫= re_match r2
  | Opt r1 => λ cfg, re_match r1 cfg ++ [cfg]
  | Star r1 => λ cfg, star_iter (re_match r1) (length cfg.2) cfg
  end.

(** [pattern.search(subject)]: a match may begin at any position. *)
Fixpoint search_from (r : regex) (prev : option ascii) (s : str) : bool :=
  match re_match r (prev, s) with
  | _ :: _ => true
  | [] => match s with
          | c :: t => search_from r (Some c) t
          | [] => false
          end
  end.

Definition search (r : regex) (s : str) : bool := search_from r None s.

(** ** CONFIG *)

Definition BASE_DIR : list str :=
  [s!"\\CA0002-PPFSS01\workgroup\"; s!"1566"; s!"active"; s!"156660046";
   s!"Kearl"; s!"Survey Requests"].

Definition MAX_NAME : nat := 150.

(** [re.compile(r"\bSR\d{8,}\b", re.I)] *)
Definition SR_SUBJECT_PATTERN : regex :=
  Seq [WordB; Lit "S"; Lit "R"; AtLeast 8 (Cls isdecimal); WordB].

(** [re.compile(r'^\s*RE\s*(\[\d+\])?\s*:', re.I)] *)
Definition RE_PREFIX : regex :=
  Seq [Bol; Star (Cls isspace); Lit "R"; Lit "E"; Star (Cls isspace);
       Opt (Seq [Lit "["; Plus (Cls isdecimal); Lit "]"]);
       Star (Cls isspace); Lit ":"].

(** ** Utilities *)

Definition INVALID_FS_CHARS : str := s!"<>:" ++ ["034"] ++ s!"/\|?*".

(** [text.translate(TRANS)]: every character of [INVALID_FS_CHARS] becomes
    a space. *)
Definition translate_TRANS (s : str) : str :=
  map (λ c, if bool_decide (c ∈ INVALID_FS_CHARS) then " " else c) s.

(** [re.sub(r"\s+", " ", s)]: scanning from the left, every maximal run of
    whitespace is replaced by one space; [in_run] tells that the previous
    character was whitespace, so that the run has been replaced already. *)
Fixpoint sub_ws_from (in_run : bool) (s : str) : str :=
  match s with
  | [] => []
  | c :: t =>
      if isspace c
      then (if in_run then sub_ws_from true t else " " :: sub_ws_from true t)
      else c :: sub_ws_from false t
  end.

Definition sub_ws (s : str) : str := sub_ws_from false s.

(** The set of characters of [rstrip(" .")]. *)
Definition space_or_dot (c : ascii) : bool :=
  bool_decide (c = " ") || bool_decide (c = ".").

Definition safe_folder_name (text : str) : str :=
  let clean := strip isspace (translate_TRANS text) in
  let clean := sub_ws clean in
  or_else (rstrip space_or_dot (take MAX_NAME clean)) s!"message".

(** [pathlib]'s [PurePath.name] belongs to the Python library, not to the
    repository. The pipeline is parametric in it (see [Section Pipeline]);
    [final_component] is the instance used to evaluate examples. It follows
    [PureWindowsPath] on names without a UNC prefix: both slashes separate,
    a leading drive letter with its colon is dropped, empty components and
    [.] are dropped, and the name is the last component left, if any. *)
Definition is_sep (c : ascii) : bool :=
  bool_decide (c = "/") || bool_decide (c = "\").

Fixpoint split_sep (cur : str) (s : str) : list str :=
  match s with
  | [] => [reverse cur]
  | c :: t =>
      if is_sep c then reverse cur :: split_sep [] t else split_sep (c :: cur) t
  end.

Definition drop_drive (s : str) : str :=
  match s with
  | c :: ":" :: t => if between 65 90 c || between 97 122 c then t else s
  | _ => s
  end.

Definition final_component (s : str) : str :=
  let parts :=
    filter (λ c, c ≠ [] ∧ c ≠ s!".") (split_sep [] (drop_drive s)) in
  default [] (last parts).


(** ** Paths and the file system

    A path is the list of its components, the anchor (drive and root) being
    the first one; [p / name] appends one component, which is what pathlib
    does when [name] holds no separator and no drive. *)

Abbreviation Path := (list str).

Definition joinpath (p : Path) (child : str) : Path := p ++ [child].

(** [p.name]: the final component. *)
Definition name (p : Path) : str := default [] (last p).

(** [s.rfind(".")], [None] standing for -1. *)
Definition rfind_dot (s : str) : option nat :=
  (λ hit : nat * ascii, length s - 1 - hit.1) <$> list_find (λ c, c = ".") (reverse s).

(** [p.suffix] and [p.stem]: the name is cut at its last dot, unless that
    dot is the first or the last character of the name. *)
Definition suffix_at (s : str) : option nat :=
  match rfind_dot s with
  | Some i => if bool_decide (0 < i < length s - 1) then Some i else None
  | None => None
  end.

Definition suffix (p : Path) : str :=
  match suffix_at (name p) with Some i => drop i (name p) | None => [] end.

Definition stem (p : Path) : str :=
  match suffix_at (name p) with Some i => take i (name p) | None => name p end.

(** [p.with_name(n)]: the final component is replaced. Python raises
    [ValueError] on a path without a name; the program calls it on paths of
    the form [dest / name] only. *)
Definition with_name (p : Path) (n : str) : Path := take (length p - 1) p ++ [n].

(** [p.parents]: the proper ancestors of [p]. *)
Definition parents (p : Path) : list Path :=
  (λ k, take k p) <$> seq 0 (length p).

Inductive node :=
| File (data : str)
| Dir.

Global Instance node_eq_dec : EqDecision node.
Proof. solve_decision. Defined.

Abbreviation FS := (gmap Path node).

(** [p.exists()], which is taken to answer whatever the path. *)
Definition exists_ (fs : FS) (p : Path) : bool := bool_decide (is_Some (fs !! p)).

(** The path and its ancestors, from the anchor down. The empty prefix is
    not a path. *)
Definition ancestry (p : Path) : list Path :=
  (λ k, take (S k) p) <$> seq 0 (length p).

Definition is_file (fs : FS) (p : Path) : bool :=
  match fs !! p with Some (File _) => true | _ => false end.

(** The calls to the operating system that it may refuse (a file in use,
    a missing permission, a full disk). A refused call raises [OSError]
    and changes nothing. *)
Inductive syscall :=
| Mkdir (p : Path)          (* p.mkdir(parents=True, exist_ok=True) *)
| OpenWrite (p : Path)      (* open(p, "wb"), p.write_text *)
| Unlink (p : Path)         (* p.unlink(missing_ok=True) *)
| Stat (p : Path)           (* p.exists() followed by p.stat() *)
| OpenExcl (p : Path)       (* os.open(p, O_CREAT | O_EXCL | O_RDWR) *)
| Close (p : Path).         (* os.close of the descriptor of p *)

(** An exception, as far as the handlers of the program tell exceptions
    apart: [zipfile.BadZipFile], or any other. *)
Inductive exn := BadZipFile | OtherException.

(** What a call gives: a value, or an exception. *)
Inductive result (A : Type) :=
| Value (a : A)
| Throw (e : exn).

Arguments Value {A} a.
Arguments Throw {A} e.

(** [str(i)] for a natural number. *)
Definition str_of_nat (i : nat) : str := list_ascii_of_string (pretty i).

(** The candidate [p.with_name(f"{stem}_{i}{suffix}")]. *)
Definition candidate (p : Path) (i : nat) : Path :=
  with_name p (stem p ++ s!"_" ++ str_of_nat i ++ suffix p).

(** The loop of [unique_path], entered with the counter [i]. It is a
    [while True]: [fuel] bounds the number of probes, and [None] means that
    the bound was reached. *)
Fixpoint unique_path_loop (fuel : nat) (fs : FS) (p : Path) (i : nat) : option Path :=
  match fuel with
  | 0 => None
  | S fuel' =>
      let cand := candidate p i in
      if negb (exists_ fs cand) then Some cand
      else unique_path_loop fuel' fs p (i + 1)
  end.

Definition unique_path_fuel (fuel : nat) (fs : FS) (p : Path) : option Path :=
  if negb (exists_ fs p) then Some p
  else unique_path_loop fuel fs p 2.

(** [unique_path]: one probe more than there are nodes always finds a free
    candidate ([unique_path_fuel_enough] below), so the default is never
    taken. *)
Definition unique_path (fs : FS) (p : Path) : Path :=
  default p (unique_path_fuel (S (size fs)) fs p).

(** ** The serialization of the processed set

    [json.dumps] of a list of strings (with the default [ensure_ascii]),
    [json.loads] on the texts that denote a list of strings, and the UTF-8
    codec of [write_text] and [read_text]. *)

Definition hex_digit (n : N) : ascii :=
  default "0" (s!"0123456789abcdef" !! N.to_nat n).

Definition DQUOTE : ascii := "034".
Definition BACKSLASH : ascii := "\".

(** The escape of one character in a JSON string. *)
Definition json_escape (c : ascii) : str :=
  if bool_decide (c = DQUOTE) then [BACKSLASH; DQUOTE]
  else if bool_decide (c = BACKSLASH) then [BACKSLASH; BACKSLASH]
  else if bool_decide (c = "010") then [BACKSLASH; "n"]
  else if bool_decide (c = "013") then [BACKSLASH; "r"]
  else if bool_decide (c = "009") then [BACKSLASH; "t"]
  else if bool_decide (c = "008") then [BACKSLASH; "b"]
  else if bool_decide (c = "012") then [BACKSLASH; "f"]
  else if between 32 126 c then [c]
  else [BACKSLASH; "u"; "0"; "0";
        hex_digit (code c / 16); hex_digit (code c `mod` 16)].

Definition json_string (s : str) : str :=
  [DQUOTE] ++ (s ≫= json_escape) ++ [DQUOTE].

(** [", ".join(items)] *)
Fixpoint join_comma (items : list str) : str :=
  match items with
  | [] => []
  | [x] => x
  | x :: rest => x ++ s!", " ++ join_comma rest
  end.

Definition json_dumps (l : list str) : str :=
  s!"[" ++ join_comma (json_string <$> l) ++ s!"]".

Definition unhex (c : ascii) : option N :=
  if between 48 57 c then Some (code c - 48)%N
  else if between 97 102 c then Some (code c - 87)%N
  else if between 65 70 c then Some (code c - 55)%N
  else None.

Definition unescape (e : ascii) : option ascii :=
  if bool_decide (e = DQUOTE) then Some DQUOTE
  else if bool_decide (e = BACKSLASH) then Some BACKSLASH
  else if bool_decide (e = "/") then Some "/"
  else if bool_decide (e = "b") then Some "008"
  else if bool_decide (e = "f") then Some "012"
  else if bool_decide (e = "n") then Some "010"
  else if bool_decide (e = "r") then Some "013"
  else if bool_decide (e = "t") then Some "009"
  else None.

Definition cons_fst (c : ascii) (r : option (str * str)) : option (str * str) :=
  (λ x : str * str, (c :: x.1, x.2)) <$> r.

(** The scanner of a JSON string, entered after the opening quote; the
    result is the string and the text after the closing quote. A code
    point above 255 is outside the characters of the embedding. *)
Fixpoint scanstring (s : str) : option (str * str) :=
  match s with
  | [] => None
  | c :: t =>
      if bool_decide (c = DQUOTE) then Some ([], t)
      else if bool_decide (c = BACKSLASH) then
        match t with
        | [] => None
        | e :: t1 =>
            if bool_decide (e = "u") then
              match t1 with
              | h1 :: h2 :: h3 :: h4 :: t2 =>
                  match unhex h1, unhex h2, unhex h3, unhex h4 with
                  | Some a, Some b, Some c, Some d =>
                      if bool_decide (a = 0 ∧ b = 0)%N
                      then cons_fst (ascii_of_N (c * 16 + d)) (scanstring t2)
                      else None
                  | _, _, _, _ => None
                  end
              | _ => None
              end
            else
              match unescape e with
              | Some x => cons_fst x (scanstring t1)
              | None => None
              end
        end
      else if (code c <? 32)%N then None
      else cons_fst c (scanstring t)
  end.

Definition json_ws (c : ascii) : bool :=
  bool_decide (c = " ") || bool_decide (c = "009")
  || bool_decide (c = "010") || bool_decide (c = "013").

(** The items of an array, entered at the first character of an item. *)
Fixpoint parse_items (fuel : nat) (s : str) : option (list str * str) :=
  match fuel with
  | 0 => None
  | S fuel' =>
      match s with
      | c :: t =>
          if bool_decide (c = DQUOTE) then
            match scanstring t with
            | Some (x, r) =>
                match lstrip json_ws r with
                | d :: r' =>
                    if bool_decide (d = "]") then Some ([x], r')
                    else if bool_decide (d = ",") then
                      (λ y : list str * str, (x :: y.1, y.2))
                        <$> parse_items fuel' (lstrip json_ws r')
                    else None
                | [] => None
                end
            | None => None
            end
          else None
      | [] => None
      end
  end.

(** [json.loads] on the fragment: [Some l] when the text is an array of
    strings; every other text, well-formed or not, is [None]. *)
Definition json_loads (s : str) : option (list str) :=
  match lstrip json_ws s with
  | c :: t =>
      if bool_decide (c = "[") then
        match lstrip json_ws t with
        | d :: r =>
            if bool_decide (d = "]")
            then (if bool_decide (lstrip json_ws r = []) then Some [] else None)
            else match parse_items (length (d :: r)) (d :: r) with
                 | Some (l, r') =>
                     if bool_decide (lstrip json_ws r' = []) then Some l else None
                 | None => None
                 end
        | [] => None
        end
      else None
  | [] => None
  end.

(** UTF-8 on the code points 0..255: one byte below 128, two bytes from
    128 on; a byte sequence that decodes to something else is [None]. *)
Definition utf8_bytes (c : ascii) : str :=
  if (code c <? 128)%N then [c]
  else [ascii_of_N (192 + code c / 64); ascii_of_N (128 + code c `mod` 64)].

Definition encode_utf8 (s : str) : str := s ≫= utf8_bytes.

Fixpoint decode_utf8 (b : str) : option str :=
  match b with
  | [] => Some []
  | x :: t =>
      if (code x <? 128)%N then cons x <$> decode_utf8 t
      else if between 194 195 x then
        match t with
        | y :: t' =>
            if between 128 191 y
            then cons (ascii_of_N ((code x - 192) * 64 + (code y - 128))) <$> decode_utf8 t'
            else None
        | [] => None
        end
      else None
  end.

(** The order of [sorted] on strings: lexicographic on the code points. *)
Fixpoint str_leb (a b : str) : bool :=
  match a, b with
  | [], _ => true
  | _ :: _, [] => false
  | x :: a', y :: b' =>
      if (code x <? code y)%N then true
      else if (code x =? code y)%N then str_leb a' b'
      else false
  end.

Definition str_le (a b : str) : Prop := str_leb a b = true.

Global Instance str_le_dec : RelDecision str_le.
Proof. intros a b. unfold str_le. apply _. Defined.

(** [sorted(seen)] *)
Definition sorted (seen : gset str) : list str := merge_sort str_le (elements seen).

(** ** The world of a run *)

Inductive event :=
| StaleLock
| AnotherRun
| Processing (subject dest_name : str)
| FailedMsg
| SavedAttachments (paths : list Path)
| NoNonZip
| CorruptZip (file_name : str)
| FailedDelete (file_name : str)
| FailedAttachment (clean_name : str)
| Done (processed : nat).

(** The files and directories, the modification time of the lock marker
    when there is one, and what was printed (latest first). *)
Record World := mkWorld {
  files : FS;
  lock : option Q;
  console : list event
}.

Definition set_files (w : World) (fs : FS) : World :=
  mkWorld fs (lock w) (console w).

Definition set_lock (w : World) (l : option Q) : World :=
  mkWorld (files w) l (console w).

Definition print (w : World) (e : event) : World :=
  mkWorld (files w) (lock w) (e :: console w).

(** What reading a member of an archive gives: its bytes; an exception
    of [zf.open(member)]; or an exception of [src.read()], which comes
    after the output file has been opened. *)
Inductive member_bytes :=
| Bytes (data : str)
| OpenRaises (e : exn)
| ReadRaises (e : exn).

(** A member of an archive: [ZipInfo.filename] and what reading it
    gives. *)
Record ZipInfo := mkZipInfo {
  filename : str;
  member_read : member_bytes
}.

(** An attachment of a mail item: [att.FileName], and the bytes that
    [att.SaveAsFile] writes, [None] when that call raises. *)
Record Attachment := mkAttachment {
  FileName : str;
  SaveAsFile : option str
}.

(** A mail item as the program sees it: reading [Subject] or [EntryID] may
    raise ([None]); [SaveAs] gives the bytes of the .msg file, [None] when
    the call raises. *)
Record MailItem := mkMailItem {
  Class : Z;
  Subject : option str;
  EntryID : option str;
  Attachments : list Attachment;
  SaveAs : option str
}.

(** How a block ends: by falling off its end or by an exception that
    nothing in it catches. *)
Inductive outcome := Returned | Raised.

(** How the program ends. *)
Inductive run_result :=
| SystemExit (status : Z)
| Finished (o : outcome).


Definition LOCK_MAX_AGE_SECS : Q := inject_Z (15 * 60).

(** The steps of [process_folder] that decide whether an item is processed
    (from the test of [mail.Class] to the test [entry_id in seen]). *)
Inductive verdict :=
| NotMail
| Unreadable
| NoTrackingNumber
| IsReply
| AlreadySeen
| Accepted (subject entry_id : str).

Definition triage (seen : gset str) (mail : MailItem) : verdict :=
  if bool_decide (Class mail ≠ 43%Z) then NotMail
  else match Subject mail, EntryID mail with
       | Some subject, Some entry_id =>
           if negb (search SR_SUBJECT_PATTERN subject) then NoTrackingNumber
           else if search RE_PREFIX subject then IsReply
           else if bool_decide (entry_id ∈ seen) then AlreadySeen
           else Accepted subject entry_id
       | _, _ => Unreadable
       end.

(** [member.is_dir()] *)
Definition is_dir (member : ZipInfo) : bool := endswith (filename member) s!"/".

Section Pipeline.

(** What the program takes from outside the repository: [PurePath.name] of
    pathlib, [Path.resolve] ([None] when it raises), what
    [zipfile.ZipFile] gives on a file (the members, or an exception), the
    refusals of the operating system ([refuses fs c]: with the files [fs]
    the call [c] is refused), and the directory of the script. *)
Variable path_name : str → str.
Variable resolve : Path → option Path.
Variable zip_open : str → result (list ZipInfo).
Variable refuses : FS → syscall → bool.
Variable RUNTIME_DIR : Path.

Definition LOCK_PATH : Path := joinpath RUNTIME_DIR s!"process_sr.lock".
Definition LOG_PATH : Path := joinpath RUNTIME_DIR s!"processed_sr_entryids.json".

(** [single_instance_lock], with the block it guards as [body] and the
    reading of the clock as [now]. Time stamps are rational numbers.

    The first [try]: an exception of [exists], [stat] or [unlink] is
    swallowed, and the marker is then still there. *)
Definition clear_stale_lock (now : Q) (w : World) : World :=
  match lock w with
  | Some mtime =>
      if refuses (files w) (Stat LOCK_PATH) then w
      else
        let age := (now - mtime)%Q in
        if Qlt_le_dec LOCK_MAX_AGE_SECS age
        then
          let w := print w StaleLock in
          if refuses (files w) (Unlink LOCK_PATH) then w else set_lock w None
        else w
  | None => w
  end.

(** [os.open] with [O_EXCL] raises [FileExistsError] on a marker, which
    ends the program with status 0; another exception of it is caught by
    nothing. In the [finally], an exception of [os.close] or [unlink] is
    swallowed, and the marker is then left. *)
Definition single_instance_lock (now : Q) (body : World → outcome * World)
    (w : World) : run_result * World :=
  let w := clear_stale_lock now w in
  match lock w with
  | Some _ => (SystemExit 0, print w AnotherRun)
  | None =>
      if refuses (files w) (OpenExcl LOCK_PATH) then (Finished Raised, w)
      else
        let w := set_lock w (Some now) in
        let '(o, w) := body w in
        if refuses (files w) (Close LOCK_PATH) || refuses (files w) (Unlink LOCK_PATH)
        then (Finished o, w)
        else (Finished o, set_lock w None)
  end.

Definition safe_file_name (name : str) : str :=
  let base :=
    rstrip space_or_dot
      (strip isspace (translate_TRANS (path_name (or_else name s!"attachment")))) in
  let base := sub_ws base in
  take MAX_NAME (or_else base s!"attachment").

(** [path.mkdir(parents=True, exist_ok=True)]: every missing ancestor is
    created. A file standing at the path or at one of its ancestors makes
    [mkdir] raise, and so does a refusal of the operating system, which
    is taken to meet the first directory to be made; raising is [None],
    and no directory has been made then. *)
Definition ensure_dir (fs : FS) (p : Path) : option FS :=
  if refuses fs (Mkdir p) || existsb (is_file fs) (ancestry p) then None
  else Some (foldr (λ q m, <[q := Dir]> m) fs (ancestry p)).

(** The guard of [secure_extract_member]: [true] when the member is to be
    skipped. An exception of [resolve] is swallowed and skips nothing. *)
Definition escapes (out_path dest : Path) : bool :=
  match resolve out_path, resolve dest with
  | Some out_path_resolved, Some dest_resolved =>
      bool_decide (dest_resolved ∉ parents out_path_resolved)
      && bool_decide (out_path_resolved ≠ dest_resolved)
  | _, _ => false
  end.

(** In the [with] statement [zf.open(member)] comes first, then
    [open(out_path, "wb")], which creates the file, then [src.read()] and
    the write: an exception of the read leaves the file empty. *)
Definition secure_extract_member (fs : FS) (member : ZipInfo) (dest : Path)
    : result (option Path) * FS :=
  if is_dir member then (Value None, fs)
  else
    let fname := path_name (filename member) in
    if bool_decide (fname = []) then (Value None, fs)
    else
      let out_path := unique_path fs (joinpath dest (safe_file_name fname)) in
      if escapes out_path dest then (Value None, fs)
      else
        match member_read member with
        | OpenRaises e => (Throw e, fs)
        | ReadRaises e =>
            if refuses fs (OpenWrite out_path) then (Throw OtherException, fs)
            else (Throw e, <[out_path := File []]> fs)
        | Bytes data =>
            if refuses fs (OpenWrite out_path) then (Throw OtherException, fs)
            else (Value (Some out_path), <[out_path := File data]> fs)
        end.

(** [for member in zf.infolist(): secure_extract_member(zf, member, dest)]:
    the first exception ends the loop, and is what the loop gives. *)
Fixpoint extract_all (fs : FS) (members : list ZipInfo) (dest : Path)
    : option exn * FS :=
  match members with
  | [] => (None, fs)
  | member :: rest =>
      match secure_extract_member fs member dest with
      | (Value _, fs') => extract_all fs' rest dest
      | (Throw e, fs') => (Some e, fs')
      end
  end.

(** The [with] block of [save_attachments] on an archive whose bytes are
    [data]: [zipfile.ZipFile] opens it and the members are extracted. *)
Definition expand (fs : FS) (data : str) (dest : Path) : option exn * FS :=
  match zip_open data with
  | Value members => extract_all fs members dest
  | Throw e => (Some e, fs)
  end.

(** [load_log] and [save_log]. Writing the log raises when a directory
    stands at [LOG_PATH] or the operating system refuses. *)
Definition load_log (fs : FS) : gset str :=
  match fs !! LOG_PATH with
  | Some (File data) =>
      match decode_utf8 data ≫= json_loads with
      | Some l => list_to_set l
      | None => ∅
      end
  | _ => ∅
  end.

Definition save_log (fs : FS) (seen : gset str) : option FS :=
  match fs !! LOG_PATH with
  | Some Dir => None
  | _ =>
      if refuses fs (OpenWrite LOG_PATH) then None
      else Some (<[LOG_PATH := File (encode_utf8 (json_dumps (sorted seen)))]> fs)
  end.

(** [save_msg]: [None] when [mail.SaveAs] raises. *)
Definition save_msg (fs : FS) (mail : MailItem) (dest_folder : Path) (subject : str)
    : option (Path * FS) :=
  let fname := or_else (safe_folder_name subject) s!"message" in
  let msg_path := unique_path fs (joinpath dest_folder (fname ++ s!".msg")) in
  match SaveAs mail with
  | Some data => Some (msg_path, <[msg_path := File data]> fs)
  | None => None
  end.

(** The body of the loop of [save_attachments]; [saved] is the list of the
    attachments kept so far. On an archive, [BadZipFile] out of the [with]
    block is reported there; the [finally] then asks for the removal of
    the archive, which may be refused and is reported then; any other
    exception of the block goes on to the outer handler after that. *)
Definition save_attachment (dest_folder : Path) (acc : list Path * World)
    (att : Attachment) : list Path * World :=
  let '(saved, w) := acc in
  let raw_name := or_else (FileName att) s!"attachment" in
  let clean_name := safe_file_name raw_name in
  let save_path := unique_path (files w) (joinpath dest_folder clean_name) in
  match SaveAsFile att with
  | Some data =>
      let fs := <[save_path := File data]> (files w) in
      if endswith (lower clean_name) s!".zip" then
        let '(raised, fs) := expand fs data dest_folder in
        let w := set_files w fs in
        let w :=
          match raised with
          | Some BadZipFile => print w (CorruptZip (name save_path))
          | _ => w
          end in
        let w :=
          if refuses (files w) (Unlink save_path)
          then print w (FailedDelete (name save_path))
          else set_files w (delete save_path (files w)) in
        let w :=
          match raised with
          | Some OtherException => print w (FailedAttachment clean_name)
          | _ => w
          end in
        (saved, w)
      else (saved ++ [save_path], set_files w fs)
  | None => (saved, print w (FailedAttachment clean_name))
  end.

Definition save_attachments (w : World) (mail : MailItem) (dest_folder : Path)
    : list Path * World :=
  foldl (save_attachment dest_folder) ([], w) (Attachments mail).

(** ** MAIN *)

(** The variables of the loop of [process_folder]. *)
Record LoopState := mkLoop {
  seen : gset str;
  processed : nat;
  world : World
}.

(** The body of the loop of [process_folder] on one item. [ensure_dir] is
    outside every [try]: when it raises, the run ends there. Marking the
    item read ([mail.UnRead], [mail.Save]) changes nothing that the
    program reads back. *)
Definition process_mail (st : LoopState) (mail : MailItem) : outcome * LoopState :=
  match triage (seen st) mail with
  | Accepted subject entry_id =>
      let dest_name := safe_folder_name subject in
      let dest := joinpath BASE_DIR dest_name in
      match ensure_dir (files (world st)) dest with
      | None => (Raised, st)
      | Some fs =>
          let w := print (set_files (world st) fs) (Processing subject dest_name) in
          let w :=
            match save_msg (files w) mail dest subject with
            | Some (_, fs) => set_files w fs
            | None => print w FailedMsg
            end in
          let '(saved_non_zips, w) := save_attachments w mail dest in
          let w :=
            match saved_non_zips with
            | [] => print w NoNonZip
            | _ => print w (SavedAttachments saved_non_zips)
            end in
          (Returned, mkLoop ({[entry_id]} ∪ seen st) (processed st + 1) w)
      end
  | _ => (Returned, st)
  end.

Fixpoint process_items (st : LoopState) (items : list MailItem) : outcome * LoopState :=
  match items with
  | [] => (Returned, st)
  | mail :: rest =>
      match process_mail st mail with
      | (Returned, st') => process_items st' rest
      | (Raised, st') => (Raised, st')
      end
  end.

(** [process_folder] on the items that the inbox hands out. The log is
    written after the loop only; an exception before that leaves it as it
    was. *)
Definition process_folder (items : list MailItem) (w : World) : outcome * World :=
  let seen0 := load_log (files w) in
  match process_items (mkLoop seen0 0 w) items with
  | (Returned, st) =>
      match save_log (files (world st)) (seen st) with
      | Some fs => (Returned, print (set_files (world st) fs) (Done (processed st)))
      | None => (Raised, world st)
      end
  | (Raised, st) => (Raised, world st)
  end.

(** [with single_instance_lock(): process_folder()] *)
Definition main (now : Q) (items : list MailItem) (w : World) : run_result * World :=
  single_instance_lock now (process_folder items) w.

End Pipeline.

(** ** Predicates of the properties *)

(** A string has a doubled blank when two whitespace characters follow
    each other in it. *)
Fixpoint double_ws (s : str) : bool :=
  match s with
  | c :: t => (isspace c && from_option isspace false (head t)) || double_ws t
  | [] => false
  end.

Definition valid_char (c : ascii) : Prop := c ∉ INVALID_FS_CHARS.

(** The character before the position reached after reading [ds] from a
    position that had [prev] before it. *)
Definition after (prev : option ascii) (ds : str) : option ascii :=
  match last ds with Some c => Some c | None => prev end.

(** Equal but for the case. *)
Definition like (x c : ascii) : Prop := lower_char x = lower_char c.

Definition all (p : ascii → bool) (s : str) : Prop := Forall (λ c, p c = true) s.

(** The tracking number as the specification words it: the token SR in
    either case, then eight digits or more, standing as a whole word. *)
Definition contains_tracking_number (subject : str) : Prop :=
  ∃ pre c1 c2 ds post,
    subject = pre ++ c1 :: c2 :: ds ++ post
    ∧ like c1 "S" ∧ like c2 "R"
    ∧ all isdecimal ds ∧ 8 ≤ length ds
    ∧ from_option isword false (last pre) = false
    ∧ from_option isword false (head post) = false.

(** The optional reply count: nothing, or [[n]] with [n] made of digits. *)
Definition reply_count (b : str) : Prop :=
  b = [] ∨ ∃ ds, ds ≠ [] ∧ all isdecimal ds ∧ b = "[" :: ds ++ ["]"].

(** The reply marker as the specification words it: after optional
    leading whitespace, RE in either case, the optional reply count and the
    colon, with nothing in between. *)
Definition begins_with_reply_marker (subject : str) : Prop :=
  ∃ ws c1 c2 b rest,
    subject = ws ++ c1 :: c2 :: b ++ ":" :: rest
    ∧ all isspace ws ∧ like c1 "R" ∧ like c2 "E" ∧ reply_count b.

(** The reply marker with whitespace allowed after RE and after the reply
    count. *)
Definition begins_with_spaced_reply_marker (subject : str) : Prop :=
  ∃ ws c1 c2 g1 b g2 rest,
    subject = ws ++ c1 :: c2 :: g1 ++ b ++ g2 ++ ":" :: rest
    ∧ all isspace ws ∧ like c1 "R" ∧ like c2 "E"
    ∧ all isspace g1 ∧ reply_count b ∧ all isspace g2.

(** A path directly inside [dest]: [dest] with one more component, which
    holds no separator and no colon and is neither [.] nor [..]. *)
Definition child_of (dest q : Path) : Prop :=
  ∃ n, q = joinpath dest n
       ∧ n ≠ [] ∧ Forall valid_char n ∧ n ≠ s!"." ∧ n ≠ s!"..".

(** Where [resolve] gives both paths, the first lies below the second or
    is the second. *)
Definition resolved_inside (resolve : Path → option Path) (q dest : Path) : Prop :=
  ∀ o d, resolve q = Some o → resolve dest = Some d → d ∈ parents o ∨ o = d.

(** [q] is the path that a file meant for [p] gets: [p] itself when
    nothing is there, otherwise the candidate with the least number from
    2 on at which nothing is; nothing is at [q]. *)
Definition first_free (fs : FS) (p q : Path) : Prop :=
  fs !! q = None
  ∧ (q = p
     ∨ is_Some (fs !! p)
       ∧ ∃ i, 2 ≤ i ∧ q = candidate p i
              ∧ ∀ j, 2 ≤ j < i → is_Some (fs !! candidate p j)).

(** [fs'] extends [fs] around the folder [dest]: what was in [fs] is in
    [fs'] unchanged, and every path that is new is a directory on the way
    to [dest] or a child of [dest]. *)
Definition extends (dest : Path) (fs fs' : FS) : Prop :=
  fs ⊆ fs'
  ∧ ∀ q, fs' !! q ≠ fs !! q →
         fs !! q = None ∧ (q ∈ ancestry dest ∨ child_of dest q).

(** ** Instances for the examples

    A file system without links, one with a single link that leaves the
    folder, a reader of archives that knows one archive, and a mailbox. *)

Definition no_links (p : Path) : option Path := Some p.

Definition one_link (p : Path) : option Path :=
  if bool_decide (p = [s!"d"; s!"link.txt"]) then Some [s!"etc"; s!"passwd"]
  else Some p.

Definition demo_archive : list ZipInfo :=
  [mkZipInfo s!"a.txt" (Bytes s!"A"); mkZipInfo s!"b.txt" (Bytes s!"B")].

Definition demo_zip_open (data : str) : result (list ZipInfo) :=
  if bool_decide (data = s!"PK-demo") then Value demo_archive
  else Throw BadZipFile.

(** An operating system that refuses nothing, and one that refuses every
    removal. *)
Definition never_refuses (fs : FS) (c : syscall) : bool := false.

Definition refuses_unlink (fs : FS) (c : syscall) : bool :=
  match c with Unlink _ => true | _ => false end.

Definition demo_runtime_dir : Path := [s!"C:\"; s!"tools"].

Definition demo_mail : MailItem :=
  mkMailItem 43 (Some s!"FW: SR12345678 survey") (Some s!"id-1")
    [mkAttachment s!"data.zip" (Some s!"PK-demo");
     mkAttachment s!"broken.ZIP" (Some s!"junk");
     mkAttachment s!"notes.txt" (Some s!"hello")]
    (Some s!"MSG").

Definition demo_unreadable : MailItem :=
  mkMailItem 43 None (Some s!"id-2") [] None.

Definition empty_world : World := mkWorld ∅ None [].

Definition demo_process_folder : list MailItem → World → outcome * World :=
  process_folder final_component no_links demo_zip_open never_refuses
    demo_runtime_dir.

(** A printable ASCII character. *)
Definition printable (c : ascii) : Prop := between 32 126 c = true.

(** More worlds and items for the examples. *)

Definition demo_folder_world : World := mkWorld {[ [s!"d"] := Dir ]} None [].


Definition kept_file_world : World :=
  mkWorld {[ [s!"keep.txt"] := File s!"x" ]} None [].

Definition demo_meeting : MailItem :=
  mkMailItem 53 (Some s!"SR12345678 kickoff") (Some s!"id-3") [] None.

(** The folder of [demo_mail] with its message and an attachment already
    there, and a second item with the same subject. *)
Definition demo_dest : Path := joinpath BASE_DIR s!"FW SR12345678 survey".

Definition demo_taken_world : World :=
  mkWorld (<[demo_dest := Dir]>
           (<[joinpath demo_dest s!"FW SR12345678 survey.msg" := File s!"MSG"]>
            (<[joinpath demo_dest s!"notes.txt" := File s!"hello"]> ∅)))
    None [].

Definition demo_twin : MailItem :=
  mkMailItem 43 (Some s!"FW: SR12345678 survey") (Some s!"id-9")
    [mkAttachment s!"notes.txt" (Some s!"again")]
    (Some s!"MSG2").




(** * Properties *)

(** ** Stripping and collapsing *)

Section strings.
Context (p : ascii → bool).
Implicit Types s : str.

Lemma lstrip_split s :
  ∃ k, s = k ++ lstrip p s ∧ Forall (λ c, p c = true) k.
Proof.
  induction s as [|c t [k [Hk Hp]]]; simpl.
  - by exists [].
  - destruct (p c) eqn:Hc.
    + exists (c :: k). split; [simpl; congruence|]. by constructor.
    + by exists [].
Qed.

Lemma lstrip_head s c : head (lstrip p s) = Some c → p c = false.
Proof.
  induction s as [|d t IH]; simpl; [done|].
  destruct (p d) eqn:Hd; [done|]. simpl. by intros [= <-].
Qed.

Lemma lstrip_suffix s : lstrip p s `suffix_of` s.
Proof. destruct (lstrip_split s) as [k [Hk _]]. by exists k. Qed.

Lemma rstrip_split s :
  ∃ k, s = rstrip p s ++ k ∧ Forall (λ c, p c = true) k.
Proof.
  unfold rstrip. destruct (lstrip_split (reverse s)) as [k [Hk Hp]].
  exists (reverse k). split; [|by apply Forall_reverse].
  rewrite <-reverse_app, <-Hk. by rewrite reverse_involutive.
Qed.

Lemma rstrip_prefix s : rstrip p s `prefix_of` s.
Proof. destruct (rstrip_split s) as [k [Hk _]]. by exists k. Qed.

Lemma rstrip_last s c : last (rstrip p s) = Some c → p c = false.
Proof. unfold rstrip. rewrite last_reverse. apply lstrip_head. Qed.

Lemma lstrip_Forall (Q : ascii → Prop) s : Forall Q s → Forall Q (lstrip p s).
Proof.
  intros H. destruct (lstrip_split s) as [k [Hk _]].
  rewrite Hk in H. by apply Forall_app in H as [_ ?].
Qed.

Lemma rstrip_Forall (Q : ascii → Prop) s : Forall Q s → Forall Q (rstrip p s).
Proof.
  intros H. destruct (rstrip_split s) as [k [Hk _]].
  rewrite Hk in H. by apply Forall_app in H as [? _].
Qed.

Lemma strip_Forall (Q : ascii → Prop) s : Forall Q s → Forall Q (strip p s).
Proof. intros. by apply rstrip_Forall, lstrip_Forall. Qed.

Lemma lstrip_all s : Forall (λ c, p c = true) s → lstrip p s = [].
Proof. induction 1 as [|c t Hc _ IH]; simpl; [done|]. by rewrite Hc. Qed.

Lemma lstrip_id s c : head s = Some c → p c = false → lstrip p s = s.
Proof. destruct s as [|d t]; simpl; [done|]. intros [= ->] ->. done. Qed.

End strings.

Lemma double_ws_app_l (s k : str) : double_ws (s ++ k) = false → double_ws s = false.
Proof.
  induction s as [|c t IH]; simpl; [done|].
  intros [H1 H2]%orb_false_iff. rewrite (IH H2), orb_false_r.
  destruct (isspace c); [|done]. simpl in *.
  destruct t; simpl in *; done.
Qed.

Lemma double_ws_prefix (s k : str) :
  s `prefix_of` k → double_ws k = false → double_ws s = false.
Proof. intros [r ->]. apply double_ws_app_l. Qed.

Lemma sub_ws_from_single (b : bool) (s : str) :
  double_ws (sub_ws_from b s) = false
  ∧ (b = true → from_option isspace false (head (sub_ws_from b s)) = false).
Proof.
  revert b. induction s as [|c t IH]; intros b; simpl; [done|].
  destruct (isspace c) eqn:Hc.
  - destruct (IH true) as [Hd Hh]. destruct b; simpl.
    + auto.
    + split; [|done]. rewrite Hd, Hh by done. done.
  - destruct (IH false) as [Hd _]. simpl. rewrite Hc, Hd. done.
Qed.

Lemma sub_ws_single (s : str) : double_ws (sub_ws s) = false.
Proof. apply sub_ws_from_single. Qed.

Lemma valid_char_space : valid_char " ".
Proof. unfold valid_char. by apply (bool_decide_unpack _). Qed.

Lemma translate_TRANS_valid (s : str) : Forall valid_char (translate_TRANS s).
Proof.
  unfold translate_TRANS. apply Forall_fmap, Forall_true. intros c. simpl.
  case_bool_decide; [apply valid_char_space|done].
Qed.

Lemma sub_ws_from_valid (b : bool) (s : str) :
  Forall valid_char s → Forall valid_char (sub_ws_from b s).
Proof.
  intros H. revert b. induction H as [|c t Hc _ IH]; intros b; simpl; [done|].
  destruct (isspace c), b; auto using valid_char_space.
Qed.

(** The last character of a collapsed string is a dot only when the last
    character of the string is. *)
Lemma sub_ws_from_last_dot (b : bool) (s : str) :
  last (sub_ws_from b s) = Some "." → last s = Some ".".
Proof.
  revert b. induction s as [|c t IH]; intros b; simpl; [done|].
  destruct (isspace c) eqn:Hc.
  - destruct b.
    + intros H. rewrite last_cons, (IH _ H). done.
    + rewrite !last_cons. destruct (last (sub_ws_from true t)) eqn:Hl.
      * intros [= ->]. by rewrite (IH _ Hl).
      * intros [= ?]; done.
  - rewrite !last_cons. destruct (last (sub_ws_from false t)) eqn:Hl.
    * intros [= ->]. by rewrite (IH _ Hl).
    * apply last_None in Hl. intros [= <-].
      destruct t as [|d t']; [done|]. simpl in Hl.
      destruct (isspace d); done.
Qed.

(** ** The name sanitizers *)

Lemma or_else_cases (s fallback : str) :
  (s = [] ∧ or_else s fallback = fallback) ∨ (s ≠ [] ∧ or_else s fallback = s).
Proof. destruct s; [left|right]; done. Qed.

Lemma message_valid : Forall valid_char s!"message".
Proof. by apply (bool_decide_unpack _). Qed.

Lemma attachment_valid : Forall valid_char s!"attachment".
Proof. by apply (bool_decide_unpack _). Qed.

(** [safe_folder_name] keeps every promise of the name sanitizer: no
    character of [INVALID_FS_CHARS], no doubled blank, never empty, at most
    [MAX_NAME] characters, and neither a dot nor a space at the end. *)
Lemma safe_folder_name_safe (text : str) :
  Forall valid_char (safe_folder_name text)
  ∧ double_ws (safe_folder_name text) = false
  ∧ safe_folder_name text ≠ []
  ∧ length (safe_folder_name text) ≤ MAX_NAME
  ∧ ∀ c, last (safe_folder_name text) = Some c → space_or_dot c = false.
Proof.
  unfold safe_folder_name.
  set (clean := sub_ws (strip isspace (translate_TRANS text))).
  destruct (or_else_cases (rstrip space_or_dot (take MAX_NAME clean)) s!"message")
    as [[_ ->]|[Hne ->]].
  { split; [apply message_valid|]. repeat split; try done.
    - unfold MAX_NAME. simpl. lia.
    - simpl. by intros c [= <-]. }
  split; [|split; [|split; [|split]]].
  - apply rstrip_Forall, Forall_take, sub_ws_from_valid, strip_Forall,
      translate_TRANS_valid.
  - eapply double_ws_prefix; [apply rstrip_prefix|].
    eapply double_ws_prefix; [apply prefix_take|]. apply sub_ws_single.
  - done.
  - etrans; [apply prefix_length, rstrip_prefix|]. rewrite length_take. lia.
  - intros c. apply rstrip_last.
Qed.

(** The fallback of [safe_folder_name]: a text made of illegal characters
    and whitespace only becomes [message]. *)
Lemma safe_folder_name_fallback (text : str) :
  Forall (λ c, c ∈ INVALID_FS_CHARS ∨ isspace c = true) text →
  safe_folder_name text = s!"message".
Proof.
  intros H. unfold safe_folder_name, strip.
  rewrite (lstrip_all isspace (translate_TRANS text)); [done|].
  unfold translate_TRANS. apply Forall_fmap. eapply Forall_impl; [exact H|].
  intros c [Hc|Hc]; simpl; case_bool_decide; done.
Qed.

(** What [safe_file_name] does keep, whatever [path_name] is: no character
    of [INVALID_FS_CHARS] (so no separator and no colon), no doubled blank,
    never empty, at most [MAX_NAME] characters, and never [.] or [..]. *)
Lemma safe_file_name_safe (path_name : str → str) (n : str) :
  let r := safe_file_name path_name n in
  Forall valid_char r ∧ double_ws r = false ∧ r ≠ [] ∧ length r ≤ MAX_NAME
  ∧ r ≠ s!"." ∧ r ≠ s!"..".
Proof.
  unfold safe_file_name. cbv zeta.
  set (x := rstrip space_or_dot
              (strip isspace (translate_TRANS (path_name (or_else n s!"attachment"))))).
  destruct (or_else_cases (sub_ws x) s!"attachment") as [[_ ->]|[Hne ->]].
  { split; [apply attachment_valid|]. repeat split; try done.
    unfold MAX_NAME. simpl. lia. }
  assert (last (sub_ws x) ≠ Some ".") as Hlast.
  { intros Hl%sub_ws_from_last_dot. by apply rstrip_last in Hl. }
  assert (∀ k, 0 < k ≤ 2 → length (take MAX_NAME (sub_ws x)) = k →
            take MAX_NAME (sub_ws x) = sub_ws x) as Hshort.
  { intros k Hk Hlen. apply take_ge. rewrite length_take in Hlen.
    unfold MAX_NAME in *. lia. }
  split; [|split; [|split; [|split; [|split]]]].
  - apply Forall_take, sub_ws_from_valid, rstrip_Forall, strip_Forall,
      translate_TRANS_valid.
  - eapply double_ws_prefix; [apply prefix_take|]. apply sub_ws_single.
  - destruct (sub_ws x); done.
  - rewrite length_take. lia.
  - intros E. apply Hlast. rewrite <-(Hshort 1), E by (rewrite ?E; simpl; lia). done.
  - intros E. apply Hlast. rewrite <-(Hshort 2), E by (rewrite ?E; simpl; lia). done.
Qed.

(** ** The matcher *)

Lemma elem_of_step_if (ok : ascii → bool) (cfg cfg' : config) :
  cfg' ∈ step_if ok cfg ↔ ∃ c t, cfg.2 = c :: t ∧ ok c = true ∧ cfg' = (Some c, t).
Proof.
  unfold step_if. destruct cfg as [prev [|c t]]; simpl.
  - split; [by intros ?%elem_of_nil|by intros (?&?&?&_)].
  - destruct (ok c) eqn:Hc.
    + rewrite list_elem_of_singleton. split; [intros ->; eauto|].
      by intros (?&?&[= <- <-]&_&->).
    + split; [by intros ?%elem_of_nil|]. intros (?&?&[= <- <-]&?&_). congruence.
Qed.

Lemma after_nil (prev : option ascii) : after prev [] = prev.
Proof. done. Qed.

Lemma after_cons (prev : option ascii) (c : ascii) (ds : str) :
  after prev (c :: ds) = after (Some c) ds.
Proof.
  unfold after. rewrite last_cons. by destruct (last ds).
Qed.

Lemma after_app (prev : option ascii) (ds ds' : str) :
  after prev (ds ++ ds') = after (after prev ds) ds'.
Proof.
  unfold after. rewrite last_app. by destruct (last ds'), (last ds).
Qed.

Lemma after_None (ds : str) : after None ds = last ds.
Proof. unfold after. by destruct (last ds). Qed.

Lemma star_iter_class (p : ascii → bool) (fuel : nat) (prev : option ascii)
    (s : str) (cfg' : config) :
  length s ≤ fuel →
  cfg' ∈ star_iter (step_if p) fuel (prev, s)
  ↔ ∃ ds t, s = ds ++ t ∧ all p ds ∧ cfg' = (after prev ds, t).
Proof.
  revert prev s. induction fuel as [|fuel IH]; intros prev s Hlen; simpl.
  - destruct s; [|simpl in Hlen; lia]. rewrite list_elem_of_singleton. split.
    + intros ->. exists [], []. by repeat split; try constructor.
    + intros (ds&t&Hs&_&->). symmetry in Hs.
      by apply app_eq_nil in Hs as [-> ->].
  - rewrite elem_of_app, list_elem_of_bind, list_elem_of_singleton. split.
    + intros [(c1&Hc'&Hc1) | ->];
        [|exists [], s; by repeat split; try constructor].
      apply list_elem_of_filter in Hc1 as [_ Hc1].
      apply elem_of_step_if in Hc1 as (c&t&Hs&Hp&->). simpl in Hs. subst s.
      apply IH in Hc' as (ds&t'&->&Hds&->); [|simpl in Hlen; lia].
      exists (c :: ds), t'. rewrite after_cons. split; [done|]. split; [|done].
      by constructor.
    + intros (ds&t&->&Hds&->). destruct ds as [|c ds]; [by right|left].
      apply Forall_cons in Hds as [Hc Hds].
      exists (Some c, ds ++ t). split.
      * apply IH; [simpl in Hlen; lia|]. exists ds, t. by rewrite after_cons.
      * apply list_elem_of_filter. split.
        -- unfold shorter. apply bool_decide_pack. simpl. lia.
        -- apply elem_of_step_if. by exists c, (ds ++ t).
Qed.

Lemma re_match_Star_class (p : ascii → bool) (prev : option ascii) (s : str)
    (cfg' : config) :
  cfg' ∈ re_match (Star (Cls p)) (prev, s)
  ↔ ∃ ds t, s = ds ++ t ∧ all p ds ∧ cfg' = (after prev ds, t).
Proof. simpl. by apply star_iter_class. Qed.

Lemma re_match_Cat (r1 r2 : regex) (cfg cfg' : config) :
  cfg' ∈ re_match (Cat r1 r2) cfg
  ↔ ∃ mid, mid ∈ re_match r1 cfg ∧ cfg' ∈ re_match r2 mid.
Proof.
  simpl. rewrite list_elem_of_bind. split; intros (mid&?&?); by exists mid.
Qed.

Lemma re_match_Cls (p : ascii → bool) (prev : option ascii) (s : str)
    (cfg' : config) :
  cfg' ∈ re_match (Cls p) (prev, s)
  ↔ ∃ c t, s = c :: t ∧ p c = true ∧ cfg' = (Some c, t).
Proof. apply elem_of_step_if. Qed.

Lemma re_match_Lit (x : ascii) (prev : option ascii) (s : str) (cfg' : config) :
  cfg' ∈ re_match (Lit x) (prev, s)
  ↔ ∃ c t, s = c :: t ∧ like c x ∧ cfg' = (Some c, t).
Proof.
  simpl. rewrite elem_of_step_if. simpl. unfold like.
  by setoid_rewrite bool_decide_eq_true.
Qed.

Lemma re_match_WordB (cfg cfg' : config) :
  cfg' ∈ re_match WordB cfg
  ↔ cfg' = cfg ∧ xorb (word_before cfg) (word_after cfg) = true.
Proof.
  simpl. destruct (xorb _ _).
  - rewrite list_elem_of_singleton. split; [by intros ->|by intros [-> _]].
  - split; [by intros ?%elem_of_nil|by intros [_ ?]].
Qed.

Lemma re_match_Bol (cfg cfg' : config) :
  cfg' ∈ re_match Bol cfg ↔ cfg' = cfg ∧ cfg.1 = None.
Proof.
  simpl. destruct cfg.1.
  - split; [by intros ?%elem_of_nil|by intros [_ ?]].
  - rewrite list_elem_of_singleton. split; [by intros ->|by intros [-> _]].
Qed.

Lemma re_match_Eps (cfg cfg' : config) : cfg' ∈ re_match Eps cfg ↔ cfg' = cfg.
Proof. simpl. apply list_elem_of_singleton. Qed.

Lemma re_match_Opt (r : regex) (cfg cfg' : config) :
  cfg' ∈ re_match (Opt r) cfg ↔ cfg' ∈ re_match r cfg ∨ cfg' = cfg.
Proof. simpl. by rewrite elem_of_app, list_elem_of_singleton. Qed.

Lemma re_match_AtLeast_class (n : nat) (p : ascii → bool) (prev : option ascii)
    (s : str) (cfg' : config) :
  cfg' ∈ re_match (AtLeast n (Cls p)) (prev, s)
  ↔ ∃ ds t, s = ds ++ t ∧ all p ds ∧ n ≤ length ds ∧ cfg' = (after prev ds, t).
Proof.
  revert prev s. induction n as [|n IH]; intros prev s.
  - change (AtLeast 0 (Cls p)) with (Star (Cls p)).
    rewrite re_match_Star_class. split.
    + intros (ds&t&?&?&?). exists ds, t. repeat split; try done. lia.
    + intros (ds&t&?&?&_&?). by exists ds, t.
  - change (AtLeast (S n) (Cls p)) with (Cat (Cls p) (AtLeast n (Cls p))).
    rewrite re_match_Cat. split.
    + intros (mid&Hmid&Hc). apply re_match_Cls in Hmid as (c&t&->&Hp&->).
      apply IH in Hc as (ds&t'&->&Hds&Hn&->).
      exists (c :: ds), t'. rewrite after_cons. repeat split; try done.
      * by constructor.
      * simpl. lia.
    + intros (ds&t&->&Hds&Hn&->). destruct ds as [|c ds]; [simpl in Hn; lia|].
      apply Forall_cons in Hds as [Hc Hds]. exists (Some c, ds ++ t). split.
      * apply re_match_Cls. by exists c, (ds ++ t).
      * apply IH. exists ds, t. rewrite after_cons. repeat split; try done.
        simpl in Hn. lia.
Qed.

(** [search] finds a match exactly when one begins at some position. *)
Lemma search_from_true (r : regex) (prev : option ascii) (s : str) :
  search_from r prev s = true
  ↔ ∃ pre post cfg', s = pre ++ post ∧ cfg' ∈ re_match r (after prev pre, post).
Proof.
  revert prev. induction s as [|c t IH]; intros prev; simpl.
  - destruct (re_match r (prev, [])) as [|cfg l] eqn:Hm.
    + split; [done|]. intros (pre&post&cfg'&Hs&Hin). symmetry in Hs.
      apply app_eq_nil in Hs as [-> ->]. change (after prev []) with prev in Hin.
      rewrite Hm in Hin. by apply elem_of_nil in Hin.
    + split; [|done]. intros _. exists [], [], cfg.
      change (after prev []) with prev. rewrite Hm.
      split; [done|]. apply list_elem_of_here.
  - destruct (re_match r (prev, c :: t)) as [|cfg l] eqn:Hm.
    + rewrite IH. split.
      * intros (pre&post&cfg'&->&Hin). exists (c :: pre), post, cfg'.
        by rewrite after_cons.
      * intros (pre&post&cfg'&Hs&Hin). destruct pre as [|d pre].
        -- simpl in Hs. subst post. change (after prev []) with prev in Hin.
           rewrite Hm in Hin. by apply elem_of_nil in Hin.
        -- simpl in Hs. injection Hs as <- ->. exists pre, post, cfg'.
           by rewrite after_cons in Hin.
    + split; [|done]. intros _. exists [], (c :: t), cfg.
      change (after prev []) with prev. rewrite Hm.
      split; [done|]. apply list_elem_of_here.
Qed.

(** ** The two patterns *)

Lemma like_S_word (c : ascii) : like c "S" → isword c = true.
Proof.
  unfold like. destruct c as [[] [] [] [] [] [] [] []];
    vm_compute; intros H; solve [reflexivity | discriminate H].
Qed.

Lemma like_punct (c : ascii) :
  (like c "[" → c = "[") ∧ (like c "]" → c = "]") ∧ (like c ":" → c = ":").
Proof.
  unfold like. destruct c as [[] [] [] [] [] [] [] []];
    vm_compute; repeat split; intros H; solve [reflexivity | discriminate H].
Qed.

Lemma isdecimal_word (c : ascii) : isdecimal c = true → isword c = true.
Proof. unfold isdecimal, isword. by intros ->. Qed.

Lemma word_before_eq (prev : option ascii) (s : str) :
  word_before (prev, s) = from_option isword false prev.
Proof. by destruct prev. Qed.

Lemma word_after_eq (prev : option ascii) (s : str) :
  word_after (prev, s) = from_option isword false (head s).
Proof. by destruct s. Qed.

Lemma after_digits_word (prev : option ascii) (ds : str) :
  ds ≠ [] → all isdecimal ds → from_option isword false (after prev ds) = true.
Proof.
  intros Hne Hds. unfold after.
  destruct (last ds) as [d|] eqn:Hl; [|by apply last_None in Hl].
  simpl. apply isdecimal_word.
  apply last_Some_elem_of in Hl. by eapply Forall_forall in Hds.
Qed.

Ltac cat H := let m := fresh "mid" in let H' := fresh H in
  apply re_match_Cat in H as (m & H' & H).

(** The pattern [SR_SUBJECT_PATTERN] finds what the specification calls
    the tracking number. *)
Lemma search_SR_SUBJECT_PATTERN (subject : str) :
  search SR_SUBJECT_PATTERN subject = true ↔ contains_tracking_number subject.
Proof.
  unfold search, contains_tracking_number. rewrite search_from_true.
  unfold SR_SUBJECT_PATTERN, Seq. split.
  - intros (pre & post & cfg' & -> & H). rewrite after_None in H.
    cat H. apply re_match_WordB in H0 as [-> Hb1].
    cat H. apply re_match_Lit in H0 as (c1 & t1 & -> & Hc1 & ->).
    cat H. apply re_match_Lit in H0 as (c2 & t2 & -> & Hc2 & ->).
    cat H. apply re_match_AtLeast_class in H0 as (ds & t3 & -> & Hds & Hn & ->).
    cat H. apply re_match_WordB in H0 as [-> Hb2]. clear H.
    exists pre, c1, c2, ds, t3. repeat split; try done.
    + rewrite word_before_eq, word_after_eq in Hb1. simpl in Hb1.
      rewrite (like_S_word c1 Hc1) in Hb1. by destruct (from_option _ _ _).
    + rewrite word_before_eq, word_after_eq in Hb2.
      rewrite after_digits_word in Hb2; [|by destruct ds; simpl in Hn; [lia|]|done].
      by destruct (from_option _ _ _).
  - intros (pre & c1 & c2 & ds & post & -> & Hc1 & Hc2 & Hds & Hn & Hpre & Hpost).
    exists pre, (c1 :: c2 :: ds ++ post), (after (Some c2) ds, post).
    split; [done|]. rewrite after_None.
    apply re_match_Cat. eexists. split.
    { apply re_match_WordB. split; [done|].
      rewrite word_before_eq, word_after_eq, Hpre. simpl.
      by rewrite (like_S_word c1 Hc1). }
    apply re_match_Cat. eexists. split.
    { apply re_match_Lit. by eexists _, _. }
    apply re_match_Cat. eexists. split.
    { apply re_match_Lit. by eexists _, _. }
    apply re_match_Cat. eexists. split.
    { apply re_match_AtLeast_class. by exists ds, post. }
    apply re_match_Cat. eexists. split; [|by apply re_match_Eps].
    apply re_match_WordB. split; [done|].
    rewrite word_before_eq, word_after_eq, Hpost.
    rewrite after_digits_word; [done| |done]. destruct ds; [simpl in Hn; lia|done].
Qed.

Lemma reply_count_match (prev : option ascii) (b rest : str) :
  reply_count b →
  ∃ cfg', cfg' ∈ re_match
            (Opt (Cat (Lit "[") (Cat (Plus (Cls isdecimal)) (Cat (Lit "]") Eps))))
            (prev, b ++ rest)
          ∧ cfg'.2 = rest.
Proof.
  intros [->|(ds & Hne & Hds & ->)].
  - exists (prev, rest). split; [|done]. apply re_match_Opt. by right.
  - destruct ds as [|d ds]; [done|]. apply Forall_cons in Hds as [Hd Hds].
    exists (Some "]", rest). split; [|done]. apply re_match_Opt. left.
    apply re_match_Cat. eexists. split.
    { apply re_match_Lit. by eexists _, _. }
    apply re_match_Cat. eexists. split.
    { unfold Plus. apply re_match_Cat. eexists. split.
      - apply re_match_Cls. by eexists _, _.
      - apply re_match_Star_class. exists ds, ("]" :: rest). split; [|done].
        change ((ds ++ ["]"]) ++ rest = ds ++ "]" :: rest).
        by rewrite <-app_assoc. }
    apply re_match_Cat. eexists. split; [|by apply re_match_Eps].
    apply re_match_Lit. by eexists _, _.
Qed.

Lemma reply_count_unmatch (prev : option ascii) (s : str) (cfg' : config) :
  cfg' ∈ re_match
    (Opt (Cat (Lit "[") (Cat (Plus (Cls isdecimal)) (Cat (Lit "]") Eps))))
    (prev, s) →
  ∃ b, reply_count b ∧ s = b ++ cfg'.2.
Proof.
  intros [H| ->]%re_match_Opt; [|exists []; split; [by left|done]].
  cat H. apply re_match_Lit in H0 as (x & t & -> & Hx & ->).
  apply like_punct in Hx as ->.
  cat H. unfold Plus in H0. cat H0.
  apply re_match_Cls in H1 as (d & t1 & -> & Hd & ->).
  apply re_match_Star_class in H0 as (ds & t2 & -> & Hds & ->).
  cat H. apply re_match_Lit in H0 as (y & t3 & -> & Hy & ->).
  apply like_punct in Hy as ->. apply re_match_Eps in H as ->. simpl.
  exists ("[" :: (d :: ds) ++ ["]"]). split.
  - right. exists (d :: ds). split; [done|]. split; [by constructor|done].
  - simpl. by rewrite <-app_assoc.
Qed.

(** The pattern [RE_PREFIX] finds the reply marker with whitespace allowed
    after RE and after the reply count. *)
Lemma search_RE_PREFIX (subject : str) :
  search RE_PREFIX subject = true ↔ begins_with_spaced_reply_marker subject.
Proof.
  unfold search, begins_with_spaced_reply_marker. rewrite search_from_true.
  unfold RE_PREFIX. unfold Seq at 1. split.
  - intros (pre & post & cfg' & -> & H). rewrite after_None in H.
    cat H. apply re_match_Bol in H0 as [-> Hpre]. simpl in Hpre.
    apply last_None in Hpre as ->.
    cat H. apply re_match_Star_class in H0 as (ws & t0 & -> & Hws & ->).
    cat H. apply re_match_Lit in H0 as (c1 & t1 & -> & Hc1 & ->).
    cat H. apply re_match_Lit in H0 as (c2 & t2 & -> & Hc2 & ->).
    cat H. apply re_match_Star_class in H0 as (g1 & t3 & -> & Hg1 & ->).
    cat H. apply reply_count_unmatch in H0 as (b & Hb & ->).
    destruct mid as [prev' t4]. simpl.
    cat H. apply re_match_Star_class in H0 as (g2 & t5 & -> & Hg2 & ->).
    cat H. apply re_match_Lit in H0 as (x & t6 & -> & Hx & ->).
    apply like_punct in Hx as ->.
    by exists ws, c1, c2, g1, b, g2, t6.
  - intros (ws & c1 & c2 & g1 & b & g2 & rest & -> & Hws & Hc1 & Hc2 & Hg1 & Hb & Hg2).
    exists [], (ws ++ c1 :: c2 :: g1 ++ b ++ g2 ++ ":" :: rest), (Some ":", rest).
    split; [done|]. rewrite after_None.
    apply re_match_Cat. eexists. split; [by apply re_match_Bol|].
    apply re_match_Cat. eexists. split.
    { apply re_match_Star_class. by eexists ws, _. }
    apply re_match_Cat. eexists. split.
    { apply re_match_Lit. by eexists _, _. }
    apply re_match_Cat. eexists. split.
    { apply re_match_Lit. by eexists _, _. }
    apply re_match_Cat. eexists. split.
    { apply re_match_Star_class. by eexists g1, _. }
    destruct (reply_count_match (after (Some c2) g1) b (g2 ++ ":" :: rest) Hb)
      as ([prev' t] & Hin & Ht). simpl in Ht. subst t.
    apply re_match_Cat. eexists. split; [exact Hin|].
    apply re_match_Cat. eexists. split.
    { apply re_match_Star_class. by eexists g2, _. }
    apply re_match_Cat. eexists. split; [|by apply re_match_Eps].
    apply re_match_Lit. by eexists _, _.
Qed.

(** ** Classification *)

(** C1 (amended). A mail item whose subject and identifier can be read
    and whose identifier is not in the processed set is accepted exactly
    when its subject holds a tracking number (SR in either case, eight
    digits or more, a whole word) and does not begin with a reply marker,
    where whitespace may stand after RE and after the reply count. *)
Theorem triage_accepts (seen : gset str) (mail : MailItem) (subject entry_id : str) :
  Class mail = 43%Z →
  Subject mail = Some subject →
  EntryID mail = Some entry_id →
  entry_id ∉ seen →
  triage seen mail = Accepted subject entry_id
  ↔ contains_tracking_number subject ∧ ¬ begins_with_spaced_reply_marker subject.
Proof.
  intros HC HS HE Hseen. unfold triage. rewrite HC, HS, HE.
  rewrite bool_decide_eq_false_2 by (intros H; by apply H).
  rewrite (bool_decide_eq_false_2 _ Hseen).
  rewrite <-search_SR_SUBJECT_PATTERN, <-search_RE_PREFIX.
  destruct (search SR_SUBJECT_PATTERN subject), (search RE_PREFIX subject); simpl.
  - split; [done|]. by intros [_ H].
  - split; [|done]. intros _. split; [done|]. by intros ?.
  - split; [done|]. by intros [? _].
  - split; [done|]. by intros [? _].
Qed.

(** The subjects that the specification lists. *)
Example triage_listed_subjects :
  let item subject := mkMailItem 43 (Some subject) (Some s!"id") [] None in
  triage ∅ (item s!"Project SR12345678 update")
    = Accepted s!"Project SR12345678 update" s!"id"
  ∧ triage ∅ (item s!"FW: SR12345678") = Accepted s!"FW: SR12345678" s!"id"
  ∧ triage ∅ (item s!"RE: SR12345678 update") = IsReply
  ∧ triage ∅ (item s!"RE[2]: SR12345678") = IsReply
  ∧ triage ∅ (item s!"SR1234") = NoTrackingNumber.
Proof. vm_compute. done. Qed.

(** C1 as it is worded fails: the subject [RE : SR12345678] holds a
    tracking number and begins neither with [RE:] nor with [RE[n]:], yet
    the item is ignored as a reply. *)
Lemma triage_spaced_reply_ignored :
  let subject := s!"RE : SR12345678" in
  let mail := mkMailItem 43 (Some subject) (Some s!"id") [] None in
  ¬ (triage ∅ mail = Accepted subject s!"id"
     ↔ contains_tracking_number subject ∧ ¬ begins_with_reply_marker subject).
Proof.
  intros subject mail [_ Hclaim].
  assert (triage ∅ mail = IsReply) as Hcode by (by vm_compute).
  rewrite Hcode in Hclaim. discriminate Hclaim. split.
  - apply search_SR_SUBJECT_PATTERN. by vm_compute.
  - intros (ws & c1 & c2 & b & rest & Hs & Hws & _ & _ & Hb).
    destruct ws as [|w ws].
    + simpl in Hs. injection Hs as <- <- Hs.
      destruct Hb as [->|(ds & _ & _ & ->)]; discriminate Hs.
    + simpl in Hs. injection Hs as <- _.
      apply Forall_cons in Hws as [Hw _]. by vm_compute in Hw.
Qed.

(** ** [unique_path] *)

Lemma exists_true (fs : FS) (p : Path) : exists_ fs p = true ↔ p ∈ dom fs.
Proof. unfold exists_. by rewrite bool_decide_eq_true, elem_of_dom. Qed.

Lemma exists_false (fs : FS) (p : Path) : exists_ fs p = false ↔ fs !! p = None.
Proof. unfold exists_. by rewrite bool_decide_eq_false, eq_None_not_Some. Qed.

Lemma stem_suffix (p : Path) : stem p ++ suffix p = name p.
Proof.
  unfold stem, suffix. destruct (suffix_at (name p)); [apply take_drop|apply app_nil_r].
Qed.

Lemma str_of_nat_inj (i j : nat) : str_of_nat i = str_of_nat j → i = j.
Proof.
  unfold str_of_nat. intros H. apply (inj pretty).
  by rewrite <-(string_of_list_ascii_of_string (pretty i)), H,
    string_of_list_ascii_of_string.
Qed.

Lemma with_name_inj (p : Path) (a b : str) : with_name p a = with_name p b → a = b.
Proof. unfold with_name. intros H%app_inv_head. by injection H. Qed.

Lemma candidate_inj (p : Path) (i j : nat) : candidate p i = candidate p j → i = j.
Proof.
  unfold candidate. intros H%with_name_inj.
  apply app_inv_head in H. apply (app_inv_head [_]) in H.
  apply app_inv_tail in H. by apply str_of_nat_inj.
Qed.

Lemma unique_path_loop_Some (fuel : nat) (fs : FS) (p q : Path) (i : nat) :
  unique_path_loop fuel fs p i = Some q →
  ∃ j, i ≤ j < i + fuel ∧ q = candidate p j ∧ exists_ fs q = false
       ∧ ∀ k, i ≤ k < j → exists_ fs (candidate p k) = true.
Proof.
  revert i. induction fuel as [|fuel IH]; intros i; simpl; [done|].
  destruct (exists_ fs (candidate p i)) eqn:Hi; simpl.
  - intros (j & Hj & -> & Hq & Hk)%IH. exists j. repeat split; try done; try lia.
    intros k Hk'. destruct (decide (k = i)) as [->|]; [done|]. apply Hk. lia.
  - intros [= <-]. exists i. repeat split; try done; try lia.
Qed.

Lemma unique_path_loop_None (fuel : nat) (fs : FS) (p : Path) (i : nat) :
  unique_path_loop fuel fs p i = None →
  ∀ k, i ≤ k < i + fuel → exists_ fs (candidate p k) = true.
Proof.
  revert i. induction fuel as [|fuel IH]; intros i; simpl; [lia|].
  destruct (exists_ fs (candidate p i)) eqn:Hi; simpl; [|done].
  intros H k Hk. destruct (decide (k = i)) as [->|]; [done|].
  apply (IH _ H). lia.
Qed.

(** The candidates are pairwise distinct, so no more of them exist than
    there are nodes. *)
Lemma candidates_bounded (fs : FS) (p : Path) (i n : nat) :
  (∀ k, i ≤ k < i + n → exists_ fs (candidate p k) = true) → n ≤ size fs.
Proof.
  intros H. set (l := candidate p <$> seq i n).
  assert (NoDup l) as Hnd.
  { apply NoDup_fmap_2_strong; [|apply NoDup_seq].
    intros ?? _ _. apply candidate_inj. }
  assert (list_to_set l ⊆ dom fs) as Hsub.
  { intros q Hq. apply elem_of_list_to_set, list_elem_of_fmap in Hq as (k & -> & Hk).
    apply elem_of_seq in Hk. apply exists_true, H. lia. }
  apply subseteq_size in Hsub.
  rewrite size_list_to_set, size_dom in Hsub by done.
  unfold l in Hsub. by rewrite length_fmap, length_seq in Hsub.
Qed.

Lemma unique_path_loop_enough (fuel : nat) (fs : FS) (p : Path) (i : nat) :
  size fs < fuel → is_Some (unique_path_loop fuel fs p i).
Proof.
  intros Hfuel. destruct (unique_path_loop fuel fs p i) eqn:Hl; [done|].
  pose proof (candidates_bounded fs p i fuel (unique_path_loop_None _ _ _ _ Hl)). lia.
Qed.

Lemma unique_path_loop_more (fuel fuel' : nat) (fs : FS) (p q : Path) (i : nat) :
  unique_path_loop fuel fs p i = Some q → fuel ≤ fuel' →
  unique_path_loop fuel' fs p i = Some q.
Proof.
  revert fuel' i. induction fuel as [|fuel IH]; intros fuel' i; simpl; [done|].
  intros H Hle. destruct fuel' as [|fuel']; [lia|]. simpl.
  destruct (exists_ fs (candidate p i)); simpl in *; [|done].
  apply IH; [done|lia].
Qed.

(** One probe more than there are nodes is enough, and more fuel changes
    nothing. *)
Lemma unique_path_fuel_enough (fuel : nat) (fs : FS) (p : Path) :
  size fs < fuel → unique_path_fuel fuel fs p = Some (unique_path fs p).
Proof.
  intros Hfuel. unfold unique_path, unique_path_fuel.
  destruct (exists_ fs p); cbn [negb]; [|done].
  destruct (unique_path_loop_enough (S (size fs)) fs p 2) as [q Hq]; [lia|].
  rewrite Hq. cbn [default]. eapply unique_path_loop_more; [done|lia].
Qed.

(** C6. [unique_path] returns, on a path that has a name: the path itself
    when nothing exists there; otherwise the candidate [stem_i.ext] in the
    same directory with the least [i] from 2 on at which nothing exists.
    The loop ends, whatever the fuel beyond the number of nodes, and the
    path returned is free. *)
Theorem unique_path_first_free (fs : FS) (p : Path) :
  name p ≠ [] →
  (exists_ fs p = false → unique_path fs p = p)
  ∧ (exists_ fs p = true →
     ∃ i, 2 ≤ i
          ∧ unique_path fs p
            = take (length p - 1) p ++ [stem p ++ s!"_" ++ str_of_nat i ++ suffix p]
          ∧ ∀ j, 2 ≤ j < i → exists_ fs (candidate p j) = true)
  ∧ exists_ fs (unique_path fs p) = false
  ∧ ∀ fuel, size fs < fuel → unique_path_fuel fuel fs p = Some (unique_path fs p).
Proof.
  intros _.
  pose proof (unique_path_fuel_enough (S (size fs)) fs p (Nat.lt_succ_diag_r _)) as Hu.
  unfold unique_path_fuel in Hu.
  split; [|split; [|split]].
  - intros Hp. rewrite Hp in Hu. cbn [negb] in Hu. by injection Hu.
  - intros Hp. rewrite Hp in Hu. cbn [negb] in Hu.
    apply unique_path_loop_Some in Hu as (i & Hi & Hq & _ & Hk).
    exists i. split; [lia|]. split; [exact Hq|done].
  - destruct (exists_ fs p) eqn:Hp; cbn [negb] in Hu.
    + by apply unique_path_loop_Some in Hu as (i & _ & _ & Hq & _).
    + injection Hu as <-. done.
  - intros fuel. apply unique_path_fuel_enough.
Qed.

Lemma unique_path_fresh (fs : FS) (p : Path) : fs !! unique_path fs p = None.
Proof.
  apply exists_false. unfold unique_path, unique_path_fuel.
  destruct (exists_ fs p) eqn:Hp; cbn [negb]; [|done].
  destruct (unique_path_loop_enough (S (size fs)) fs p 2) as [q Hq]; [lia|].
  rewrite Hq. cbn [default]. by apply unique_path_loop_Some in Hq as (i & _ & _ & ? & _).
Qed.

(** ** The processed-set store *)

Lemma scanstring_escape (c : ascii) (t : str) :
  scanstring (json_escape c ++ t) = cons_fst c (scanstring t).
Proof. destruct c as [[] [] [] [] [] [] [] []]; reflexivity. Qed.

Lemma scanstring_string (s rest : str) :
  scanstring ((s ≫= json_escape) ++ DQUOTE :: rest) = Some (s, rest).
Proof.
  induction s as [|c s IH]; [done|].
  change ((c :: s) ≫= json_escape) with (json_escape c ++ (s ≫= json_escape)).
  by rewrite <-app_assoc, scanstring_escape, IH.
Qed.

Lemma json_string_unfold (s rest : str) :
  json_string s ++ rest = DQUOTE :: (s ≫= json_escape) ++ DQUOTE :: rest.
Proof. unfold json_string. simpl. by rewrite <-app_assoc. Qed.

Lemma join_comma_cons (x y : str) (l : list str) :
  join_comma (x :: y :: l) = x ++ s!", " ++ join_comma (y :: l).
Proof. done. Qed.

Lemma parse_items_dumped (l : list str) (x : str) (fuel : nat) (rest : str) :
  length l < fuel →
  parse_items fuel (join_comma (json_string <$> x :: l) ++ "]" :: rest)
  = Some (x :: l, rest).
Proof.
  revert x fuel. induction l as [|y l IH]; intros x fuel Hfuel;
    (destruct fuel as [|fuel]; [lia|]).
  - change (join_comma (json_string <$> [x])) with (json_string x).
    rewrite json_string_unfold. cbn [parse_items].
    rewrite bool_decide_eq_true_2 by done. by rewrite scanstring_string.
  - change (json_string <$> x :: y :: l)
      with (json_string x :: json_string y :: (json_string <$> l)).
    rewrite join_comma_cons, <-!app_assoc, json_string_unfold. cbn [parse_items].
    rewrite bool_decide_eq_true_2 by done. rewrite scanstring_string.
    change (s!", " ++ ?k) with ("," :: " " :: k).
    change (lstrip json_ws ("," :: " " :: ?k)) with ("," :: " " :: k).
    cbv iota beta. rewrite bool_decide_eq_false_2 by done.
    rewrite bool_decide_eq_true_2 by done.
    change (json_string y :: (json_string <$> l)) with (json_string <$> y :: l).
    assert (∀ k, lstrip json_ws (" " :: join_comma (json_string <$> y :: l) ++ k)
                 = join_comma (json_string <$> y :: l) ++ k) as ->.
    { intros k. destruct l; reflexivity. }
    rewrite IH by (simpl in Hfuel; lia). done.
Qed.

Lemma join_comma_length (l : list str) (x : str) :
  length (x :: l) ≤ length (join_comma (json_string <$> x :: l)).
Proof.
  revert x. induction l as [|y l IH]; intros x.
  - change (join_comma (json_string <$> [x])) with (json_string x).
    unfold json_string. rewrite !length_app. simpl. lia.
  - change (json_string <$> x :: y :: l)
      with (json_string x :: json_string y :: (json_string <$> l)).
    rewrite join_comma_cons, !length_app. specialize (IH y).
    change (json_string <$> y :: l)
      with (json_string y :: (json_string <$> l)) in IH.
    simpl in *. lia.
Qed.

(** What [json.dumps] writes, [json.loads] reads back. *)
Lemma json_loads_dumps (l : list str) : json_loads (json_dumps l) = Some l.
Proof.
  destruct l as [|x l]; [done|]. unfold json_dumps, json_loads.
  change (s!"[" ++ ?k) with ("[" :: k).
  change (lstrip json_ws ("[" :: ?k)) with ("[" :: k). cbv iota beta.
  rewrite bool_decide_eq_true_2 by done.
  set (body := join_comma (json_string <$> x :: l)).
  assert (∃ t, body = DQUOTE :: t) as [t Ht].
  { unfold body. destruct l; eexists; reflexivity. }
  assert (length l < length (body ++ s!"]")) as Hlen.
  { pose proof (join_comma_length l x) as H. fold body in H.
    rewrite length_app. simpl in *. lia. }
  assert (lstrip json_ws (body ++ s!"]") = DQUOTE :: t ++ s!"]") as ->.
  { by rewrite Ht. }
  rewrite bool_decide_eq_false_2 by done.
  change (DQUOTE :: t ++ s!"]") with ((DQUOTE :: t) ++ s!"]"). rewrite <-Ht.
  unfold body in *. change (s!"]") with ("]" :: @nil ascii) in *.
  by rewrite parse_items_dumped.
Qed.

Lemma decode_utf8_char (c : ascii) (t : str) :
  decode_utf8 (utf8_bytes c ++ t) = cons c <$> decode_utf8 t.
Proof. destruct c as [[] [] [] [] [] [] [] []]; reflexivity. Qed.

Lemma decode_encode_utf8 (s : str) : decode_utf8 (encode_utf8 s) = Some s.
Proof.
  induction s as [|c s IH]; [done|].
  change (encode_utf8 (c :: s)) with (utf8_bytes c ++ encode_utf8 s).
  by rewrite decode_utf8_char, IH.
Qed.

Lemma list_to_set_sorted (seen : gset str) : list_to_set (sorted seen) = seen.
Proof.
  unfold sorted. rewrite (list_to_set_perm_L _ (elements seen)).
  - apply list_to_set_elements_L.
  - apply merge_sort_Permutation.
Qed.

(** ** The archive expander *)

Lemma pretty_N_char_valid (x : N) : valid_char (pretty_N_char x).
Proof.
  unfold pretty_N_char, valid_char.
  repeat case_match; by apply (bool_decide_unpack _).
Qed.

Lemma pretty_N_go_valid (x : N) (s : string) :
  Forall valid_char (list_ascii_of_string s) →
  Forall valid_char (list_ascii_of_string (pretty_N_go x s)).
Proof.
  revert s. induction (N.lt_wf_0 x) as [x _ IH]; intros s Hs.
  destruct (decide (x = 0)%N) as [->|Hx]; [by rewrite pretty_N_go_0|].
  rewrite pretty_N_go_step by lia. apply IH.
  - apply N.div_lt; lia.
  - simpl. constructor; [apply pretty_N_char_valid|done].
Qed.

Lemma str_of_nat_valid (i : nat) : Forall valid_char (str_of_nat i).
Proof.
  unfold str_of_nat, pretty, pretty_nat, pretty, pretty_N.
  case_decide; [by apply (bool_decide_unpack _)|].
  by apply pretty_N_go_valid.
Qed.

Lemma name_joinpath (dest : Path) (n : str) : name (joinpath dest n) = n.
Proof. unfold name, joinpath. by rewrite last_snoc. Qed.

Lemma with_name_joinpath (dest : Path) (n m : str) :
  with_name (joinpath dest n) m = joinpath dest m.
Proof.
  unfold with_name, joinpath. rewrite length_app. simpl.
  rewrite take_app_length'; [done|lia].
Qed.

Lemma unique_path_cases (fs : FS) (p : Path) :
  unique_path fs p = p ∨ ∃ i, unique_path fs p = candidate p i.
Proof.
  unfold unique_path, unique_path_fuel.
  destruct (exists_ fs p); cbn [negb]; [|by left].
  destruct (unique_path_loop (S (size fs)) fs p 2) as [q|] eqn:Hq; [|by left].
  apply unique_path_loop_Some in Hq as (i & _ & -> & _). right. by exists i.
Qed.

(** [unique_path] gives the first free path among [p] and its numbered
    candidates. *)
Lemma unique_path_first (fs : FS) (p : Path) : first_free fs p (unique_path fs p).
Proof.
  split; [apply unique_path_fresh|].
  pose proof (unique_path_fuel_enough (S (size fs)) fs p (Nat.lt_succ_diag_r _)) as Hu.
  unfold unique_path_fuel in Hu.
  destruct (exists_ fs p) eqn:Hp; cbn [negb] in Hu.
  - right. split; [by apply bool_decide_eq_true in Hp|].
    apply unique_path_loop_Some in Hu as (i & Hi & Hq & _ & Hk).
    exists i. split; [lia|]. split; [done|]. intros j Hj.
    specialize (Hk j Hj). by apply bool_decide_eq_true in Hk.
  - left. by injection Hu.
Qed.

(** A free path for a sanitized name in [dest] is a child of [dest]. *)
Lemma unique_path_child (fs : FS) (dest : Path) (n : str) :
  n ≠ [] → Forall valid_char n → n ≠ s!"." → n ≠ s!".." →
  child_of dest (unique_path fs (joinpath dest n)).
Proof.
  intros Hne Hv Hd Hdd.
  destruct (unique_path_cases fs (joinpath dest n)) as [->|[i ->]].
  { by exists n. }
  unfold candidate. rewrite with_name_joinpath.
  set (m := stem _ ++ s!"_" ++ str_of_nat i ++ suffix _).
  assert ("_" ∈ m) as Hin.
  { unfold m. rewrite !elem_of_app. right. left. apply list_elem_of_here. }
  exists m. split; [done|]. split; [|split; [|split]].
  - intros E. rewrite E in Hin. by apply elem_of_nil in Hin.
  - pose proof (stem_suffix (joinpath dest n)) as Hss.
    rewrite name_joinpath in Hss. rewrite <-Hss in Hv.
    apply Forall_app in Hv as [Hst Hsu]. unfold m.
    repeat (apply Forall_app; split); try done.
    + by apply (bool_decide_unpack _).
    + apply str_of_nat_valid.
  - intros E. rewrite E in Hin. revert Hin. by apply (bool_decide_unpack _).
  - intros E. rewrite E in Hin. revert Hin. by apply (bool_decide_unpack _).
Qed.
Section expander.
Context (path_name : str → str) (resolve : Path → option Path)
  (refuses : FS → syscall → bool).

Local Abbreviation extract_member := (secure_extract_member path_name resolve refuses).
Local Abbreviation extract_all' := (extract_all path_name resolve refuses).

Lemma escapes_false (q dest : Path) :
  escapes resolve q dest = false → resolved_inside resolve q dest.
Proof.
  unfold escapes. intros H o d Ho Hd. rewrite Ho, Hd in H.
  apply andb_false_iff in H as [H|H]; apply bool_decide_eq_false in H.
  - left. by apply dec_stable.
  - right. by apply dec_stable.
Qed.

(** A member either leaves the files as they are (it is skipped, or it
    raises before the output file is opened), or puts a file at a path
    that was free, is a child of [dest] and passed the guard; a value
    comes with the bytes of the member, an exception of the read with
    the empty file. *)
Lemma secure_extract_member_cases (fs : FS) (member : ZipInfo) (dest : Path) :
  (extract_member fs member dest).2 = fs
  ∨ ∃ q data, (extract_member fs member dest).2 = <[q := File data]> fs
              ∧ q = unique_path fs
                      (joinpath dest
                         (safe_file_name path_name (path_name (filename member))))
              ∧ fs !! q = None ∧ child_of dest q ∧ escapes resolve q dest = false.
Proof.
  unfold secure_extract_member. destruct (is_dir member); [by left|].
  case_bool_decide; [by left|].
  set (n := safe_file_name path_name (path_name (filename member))).
  set (q := unique_path fs (joinpath dest n)).
  destruct (escapes resolve q dest) eqn:He; [by left|].
  assert (fs !! q = None ∧ child_of dest q) as [Hfree Hchild].
  { split; [apply unique_path_fresh|].
    destruct (safe_file_name_safe path_name (path_name (filename member)))
      as (Hv & _ & Hne & _ & Hd & Hdd).
    by apply unique_path_child. }
  destruct (member_read member) as [data|e|e]; [| by left |];
    (destruct (refuses fs (OpenWrite q)); [by left|]);
    right; by eexists q, _.
Qed.

Lemma extract_all_cons (fs : FS) (member : ZipInfo) (rest : list ZipInfo)
    (dest : Path) :
  extract_all' fs (member :: rest) dest
  = match extract_member fs member dest with
    | (Value _, fs') => extract_all' fs' rest dest
    | (Throw e, fs') => (Some e, fs')
    end.
Proof. done. Qed.

(** After the first member the loop goes on with the others or has
    ended. *)
Lemma extract_all_step (fs : FS) (member : ZipInfo) (rest : list ZipInfo)
    (dest : Path) :
  ∃ rest', (rest' = rest ∨ rest' = [])
           ∧ (extract_all' fs (member :: rest) dest).2
             = (extract_all' (extract_member fs member dest).2 rest' dest).2.
Proof.
  rewrite extract_all_cons.
  destruct (extract_member fs member dest) as [[v|e] fs'].
  - exists rest. by split; [left|].
  - exists []. by split; [right|].
Qed.

Lemma extract_all_changes (members : list ZipInfo) (dest : Path) (fs : FS) (q : Path) :
  (extract_all' fs members dest).2 !! q ≠ fs !! q →
  fs !! q = None ∧ child_of dest q ∧ resolved_inside resolve q dest.
Proof.
  revert fs. induction members as [|m ms IH]; intros fs; [done|].
  destruct (extract_all_step fs m ms dest) as (ms' & Hms' & ->).
  assert (∀ fs, (extract_all' fs ms' dest).2 !! q ≠ fs !! q →
            fs !! q = None ∧ child_of dest q ∧ resolved_inside resolve q dest)
    as IH'.
  { destruct Hms' as [->| ->]; [exact IH|done]. }
  clear IH.
  destruct (secure_extract_member_cases fs m dest)
    as [->|(q0 & data & -> & _ & Hfree & Hchild & Hesc)]; [apply IH'|].
  intros Hq.
  destruct (decide ((extract_all' (<[q0:=File data]> fs) ms' dest).2 !! q
                    = <[q0:=File data]> fs !! q)) as [Heq|Hne].
  - rewrite Heq in Hq. destruct (decide (q0 = q)) as [<-|Hq0].
    + auto using escapes_false.
    + by rewrite lookup_insert_ne in Hq.
  - apply IH' in Hne as (Hnone & ? & ?). split; [|done].
    apply lookup_insert_None in Hnone as [? _]. done.
Qed.

Lemma extract_all_mono (members : list ZipInfo) (dest : Path) (fs : FS) :
  fs ⊆ (extract_all' fs members dest).2.
Proof.
  revert fs. induction members as [|m ms IH]; intros fs; [done|].
  destruct (extract_all_step fs m ms dest) as (ms' & Hms' & ->).
  assert (∀ fs, fs ⊆ (extract_all' fs ms' dest).2) as IH'.
  { destruct Hms' as [->| ->]; [exact IH|done]. }
  destruct (secure_extract_member_cases fs m dest)
    as [->|(q0 & data & -> & _ & Hfree & _)]; [apply IH'|].
  etrans; [by apply insert_subseteq|apply IH'].
Qed.

(** C4. Extraction writes inside the destination directory only. Whatever
    the names of the members, whatever can be read of them and whatever
    the operating system refuses, every path that extraction changes was
    free before, is a child of [dest] whose name holds no separator, no
    colon and is neither [.] nor [..] (the directory part of the member
    name is gone), and, where [resolve] gives both paths, lies inside the
    resolved [dest]. A member whose resolved candidate lies outside is
    skipped without a trace, and the members after it are extracted as
    if it were not there. *)
Theorem extraction_stays_inside (fs : FS) (dest : Path) :
  (∀ members q,
     (extract_all path_name resolve refuses fs members dest).2 !! q ≠ fs !! q →
     fs !! q = None ∧ child_of dest q ∧ resolved_inside resolve q dest)
  ∧ (∀ member rest,
       let fname := path_name (filename member) in
       let out_path := unique_path fs (joinpath dest (safe_file_name path_name fname)) in
       escapes resolve out_path dest = true →
       secure_extract_member path_name resolve refuses fs member dest
       = (Value None, fs)
       ∧ extract_all path_name resolve refuses fs (member :: rest) dest
         = extract_all path_name resolve refuses fs rest dest).
Proof.
  split.
  - intros members q. apply extract_all_changes.
  - intros member rest fname out_path Hesc.
    assert (extract_member fs member dest = (Value None, fs)) as Hskip.
    { unfold secure_extract_member. destruct (is_dir member); [done|].
      case_bool_decide; [done|]. fold fname. fold out_path. by rewrite Hesc. }
    split; [done|]. by rewrite extract_all_cons, Hskip.
Qed.

End expander.
(** ** Saving the attachments and the message *)

Lemma subseteq_delete_fresh (m m' : FS) (p : Path) :
  m ⊆ m' → m !! p = None → m ⊆ delete p m'.
Proof.
  intros Hsub Hp. apply map_subseteq_spec. intros q v Hq.
  rewrite lookup_delete_ne by (intros ->; congruence).
  by eapply lookup_weaken.
Qed.

Lemma lookup_foldr_Dir (l : list Path) (fs : FS) (q : Path) :
  foldr (λ p m, <[p := Dir]> m) fs l !! q
  = if decide (q ∈ l) then Some Dir else fs !! q.
Proof.
  induction l as [|p l IH]; cbn [foldr].
  - destruct (decide (q ∈ [])) as [H|H]; [by apply elem_of_nil in H|done].
  - destruct (decide (p = q)) as [->|Hpq].
    + rewrite lookup_insert_eq.
      destruct (decide (q ∈ q :: l)) as [|H]; [done|].
      destruct H. apply list_elem_of_here.
    + rewrite lookup_insert_ne, IH by done.
      destruct (decide (q ∈ l)) as [Hin|Hin],
        (decide (q ∈ p :: l)) as [Hin'|Hin']; try done.
      * destruct Hin'. by apply list_elem_of_further.
      * apply elem_of_cons in Hin' as [?|?]; congruence.
Qed.

Lemma ensure_dir_lookup (refuses : FS → syscall → bool) (fs fs' : FS) (p q : Path) :
  ensure_dir refuses fs p = Some fs' →
  fs' !! q = (if decide (q ∈ ancestry p) then Some Dir else fs !! q)
  ∧ (q ∈ ancestry p → fs !! q = None ∨ fs !! q = Some Dir).
Proof.
  unfold ensure_dir. destruct (refuses fs (Mkdir p)); [done|]. cbn [orb].
  destruct (existsb _ _) eqn:Hex; [done|]. intros [= <-].
  split; [apply lookup_foldr_Dir|]. intros Hq.
  destruct (fs !! q) as [[data|]|] eqn:Hfs; auto.
  assert (existsb (is_file fs) (ancestry p) = true) as Habs; [|congruence].
  apply existsb_exists. exists q. split; [by apply list_elem_of_In|].
  unfold is_file. by rewrite Hfs.
Qed.

Lemma ensure_dir_mono (refuses : FS → syscall → bool) (fs fs' : FS) (p : Path) :
  ensure_dir refuses fs p = Some fs' → fs ⊆ fs'.
Proof.
  intros H. apply map_subseteq_spec. intros q v Hq.
  destruct (ensure_dir_lookup refuses fs fs' p q H) as [-> Hanc].
  destruct (decide (q ∈ ancestry p)) as [Hin|]; [|done].
  destruct (Hanc Hin); congruence.
Qed.

Lemma ancestry_self (dest : Path) (n : str) :
  joinpath dest n ∈ ancestry (joinpath dest n).
Proof.
  unfold ancestry. apply list_elem_of_fmap. exists (length dest). split.
  - unfold joinpath. symmetry. apply take_ge. rewrite length_app. simpl. lia.
  - apply elem_of_seq. unfold joinpath. rewrite length_app. simpl. lia.
Qed.

Lemma ensure_dir_changes (refuses : FS → syscall → bool) (fs fs' : FS) (p q : Path) :
  ensure_dir refuses fs p = Some fs' → fs' !! q ≠ fs !! q →
  fs !! q = None ∧ q ∈ ancestry p.
Proof.
  intros H Hq. destruct (ensure_dir_lookup refuses fs fs' p q H) as [Hl Hanc].
  rewrite Hl in Hq. destruct (decide (q ∈ ancestry p)) as [Hin|]; [|done].
  split; [|done]. destruct (Hanc Hin) as [?|Hd]; [done|]. by rewrite Hd in Hq.
Qed.

Section attachments.
Context (path_name : str → str) (resolve : Path → option Path)
  (zip_open : str → result (list ZipInfo)) (refuses : FS → syscall → bool).

Local Abbreviation step := (save_attachment path_name resolve zip_open refuses).
Local Abbreviation expand' := (expand path_name resolve zip_open refuses).
Local Abbreviation clean_name_of att :=
  (safe_file_name path_name (or_else (FileName att) s!"attachment")).

(** [save_path] of an attachment is a free child of the folder. *)
Lemma save_path_child (fs : FS) (dest : Path) (raw : str) :
  child_of dest (unique_path fs (joinpath dest (safe_file_name path_name raw))).
Proof.
  destruct (safe_file_name_safe path_name raw) as (Hv & _ & Hne & _ & Hd & Hdd).
  by apply unique_path_child.
Qed.

Lemma expand_frame (fs : FS) (data : str) (dest : Path) :
  fs ⊆ (expand' fs data dest).2
  ∧ ∀ q, (expand' fs data dest).2 !! q ≠ fs !! q →
         fs !! q = None ∧ child_of dest q.
Proof.
  unfold expand. destruct (zip_open data) as [members|e]; [|done]. split.
  - apply extract_all_mono.
  - intros q Hq. by apply extract_all_changes in Hq as (? & ? & _).
Qed.

(** An attachment that cannot be saved. *)
Lemma save_attachment_failed (dest : Path) (saved : list Path) (w : World)
    (att : Attachment) :
  SaveAsFile att = None →
  step dest (saved, w) att = (saved, print w (FailedAttachment (clean_name_of att))).
Proof. intros H. unfold save_attachment. by rewrite H. Qed.

(** An attachment that is no archive. *)
Lemma save_attachment_plain (dest : Path) (saved : list Path) (w : World)
    (att : Attachment) (data : str) :
  SaveAsFile att = Some data →
  endswith (lower (clean_name_of att)) s!".zip" = false →
  let save_path := unique_path (files w) (joinpath dest (clean_name_of att)) in
  step dest (saved, w) att
  = (saved ++ [save_path], set_files w (<[save_path := File data]> (files w))).
Proof. intros H Hz. unfold save_attachment. by rewrite H, Hz. Qed.

(** An attachment that is an archive: the files after its turn are the
    files after the [with] block, less the archive when its removal is
    not refused. *)
Lemma save_attachment_zip (dest : Path) (saved : list Path) (w : World)
    (att : Attachment) (data : str) :
  SaveAsFile att = Some data →
  endswith (lower (clean_name_of att)) s!".zip" = true →
  let save_path := unique_path (files w) (joinpath dest (clean_name_of att)) in
  let fs := (expand' (<[save_path := File data]> (files w)) data dest).2 in
  (step dest (saved, w) att).1 = saved
  ∧ lock (step dest (saved, w) att).2 = lock w
  ∧ files (step dest (saved, w) att).2
    = (if refuses fs (Unlink save_path) then fs else delete save_path fs).
Proof.
  intros H Hz. cbv zeta. unfold save_attachment. rewrite H, Hz.
  destruct (expand' _ data dest) as [raised fs]. cbn [snd].
  destruct raised as [[]|]; cbn [files set_files print];
    by destruct (refuses fs _).
Qed.

(** One attachment: what was there stays, and what is new is a child of
    the folder that was free. *)
Lemma save_attachment_frame (dest : Path) (saved : list Path) (w : World)
    (att : Attachment) :
  files w ⊆ files (step dest (saved, w) att).2
  ∧ ∀ q, files (step dest (saved, w) att).2 !! q ≠ files w !! q →
         files w !! q = None ∧ child_of dest q.
Proof.
  set (clean := clean_name_of att).
  set (sp := unique_path (files w) (joinpath dest clean)).
  pose proof (unique_path_fresh (files w) (joinpath dest clean)) as Hfresh.
  pose proof (save_path_child (files w) dest (or_else (FileName att) s!"attachment"))
    as Hchild.
  fold clean in Hchild. fold sp in Hfresh, Hchild.
  destruct (SaveAsFile att) as [data|] eqn:Hdata;
    [|by rewrite save_attachment_failed].
  destruct (endswith (lower clean) s!".zip") eqn:Hzip.
  - destruct (save_attachment_zip dest saved w att data Hdata Hzip) as (_ & _ & ->).
    fold clean. fold sp.
    destruct (expand_frame (<[sp := File data]> (files w)) data dest) as [Hsub Hch].
    set (fs := <[sp := File data]> (files w)) in *.
    set (X := (expand' fs data dest).2) in *.
    assert (files w ⊆ fs) as Hfs by (by apply insert_subseteq).
    assert (∀ q, q ≠ sp → X !! q ≠ files w !! q →
                 files w !! q = None ∧ child_of dest q) as Hother.
    { intros q Hq Hne.
      assert (fs !! q = files w !! q) as E by (by apply lookup_insert_ne).
      rewrite <-E in Hne. apply Hch in Hne as [? ?]. split; [congruence|done]. }
    destruct (refuses X (Unlink sp)).
    + split; [by etrans|]. intros q Hq.
      destruct (decide (q = sp)) as [->|Hne]; [done|]. by apply Hother.
    + split; [apply subseteq_delete_fresh; [by etrans|done]|].
      intros q. destruct (decide (q = sp)) as [->|Hne].
      { by rewrite lookup_delete_eq, Hfresh. }
      rewrite lookup_delete_ne by done. by apply Hother.
  - rewrite (save_attachment_plain dest saved w att data Hdata Hzip).
    fold clean. fold sp. cbn [snd files set_files].
    split; [by apply insert_subseteq|].
    intros q. destruct (decide (sp = q)) as [<-|Hq]; [done|].
    by rewrite lookup_insert_ne.
Qed.

Lemma save_attachments_frame (dest : Path) (atts : list Attachment)
    (saved : list Path) (w : World) :
  files w ⊆ files (foldl (step dest) (saved, w) atts).2
  ∧ ∀ q, files (foldl (step dest) (saved, w) atts).2 !! q ≠ files w !! q →
         files w !! q = None ∧ child_of dest q.
Proof.
  revert saved w. induction atts as [|att atts IH]; intros saved w; [done|].
  cbn [foldl].
  destruct (save_attachment_frame dest saved w att) as [Hsub1 Hch1].
  destruct (step dest (saved, w) att) as [saved1 w1]. cbn [snd] in Hsub1, Hch1.
  destruct (IH saved1 w1) as [Hsub Hch]. split; [etrans; eassumption|].
  intros q Hq.
  destruct (decide (files (foldl (step dest) (saved1, w1) atts).2 !! q
                    = files w1 !! q)) as [Heq|Hne].
  - rewrite Heq in Hq. by apply Hch1.
  - apply Hch in Hne as [Hnone ?]. split; [|done].
    by eapply lookup_weaken_None.
Qed.

(** The attachments leave the marker alone. *)
Lemma save_attachment_lock (dest : Path) (saved : list Path) (w : World)
    (att : Attachment) :
  lock (step dest (saved, w) att).2 = lock w.
Proof.
  destruct (SaveAsFile att) as [data|] eqn:Hdata;
    [|by rewrite save_attachment_failed].
  destruct (endswith (lower (clean_name_of att)) s!".zip") eqn:Hzip.
  - by destruct (save_attachment_zip dest saved w att data Hdata Hzip) as (_ & -> & _).
  - by rewrite (save_attachment_plain dest saved w att data Hdata Hzip).
Qed.

Lemma save_attachments_lock (dest : Path) (atts : list Attachment)
    (saved : list Path) (w : World) :
  lock (foldl (step dest) (saved, w) atts).2 = lock w.
Proof.
  revert saved w. induction atts as [|att atts IH]; intros saved w; [done|].
  cbn [foldl]. pose proof (save_attachment_lock dest saved w att) as H1.
  destruct (step dest (saved, w) att) as [saved1 w1]. cbn [snd] in H1.
  by rewrite IH.
Qed.

(** The list of the saved attachments only grows. *)
Lemma save_attachment_list (dest : Path) (saved : list Path) (w : World)
    (att : Attachment) :
  saved ⊆ (step dest (saved, w) att).1.
Proof.
  unfold save_attachment. destruct (SaveAsFile att); [|done].
  destruct (endswith _ _).
  - by destruct (expand' _ _ _).
  - simpl. intros p Hp. apply elem_of_app. by left.
Qed.

Lemma save_attachments_list (dest : Path) (atts : list Attachment)
    (saved : list Path) (w : World) :
  saved ⊆ (foldl (step dest) (saved, w) atts).1.
Proof.
  revert saved w. induction atts as [|att atts IH]; intros saved w; [done|].
  cbn [foldl]. pose proof (save_attachment_list dest saved w att) as H1.
  destruct (step dest (saved, w) att) as [saved1 w1]. cbn [fst] in H1.
  etrans; [exact H1|apply IH].
Qed.

(** Every attachment that is no archive and whose bytes Outlook hands
    out is saved and listed, at the first free path for its name on the
    files [fs] of its turn, whatever happens to the attachments around
    it; the files of its turn hold the files from before and are all
    there at the end. *)
Lemma plain_attachment_saved (dest : Path) (atts : list Attachment)
    (saved : list Path) (w : World) (att : Attachment) (data : str) :
  att ∈ atts → SaveAsFile att = Some data →
  endswith (lower (clean_name_of att)) s!".zip" = false →
  ∃ p fs, p ∈ (foldl (step dest) (saved, w) atts).1
          ∧ files (foldl (step dest) (saved, w) atts).2 !! p = Some (File data)
          ∧ files w ⊆ fs
          ∧ fs ⊆ files (foldl (step dest) (saved, w) atts).2
          ∧ first_free fs (joinpath dest (clean_name_of att)) p.
Proof.
  intros Hin Hdata Hzip. revert saved w.
  induction atts as [|a atts IH]; intros saved w; [by apply elem_of_nil in Hin|].
  cbn [foldl]. apply elem_of_cons in Hin as [<-|Hin].
  - pose proof (unique_path_fresh (files w) (joinpath dest (clean_name_of att)))
      as Hfresh.
    rewrite (save_attachment_plain dest saved w att data Hdata Hzip).
    set (p := unique_path (files w) (joinpath dest (clean_name_of att))) in *.
    exists p, (files w). split; [|split; [|split; [|split]]].
    + apply save_attachments_list, elem_of_app. right. apply list_elem_of_here.
    + eapply lookup_weaken; [|apply save_attachments_frame].
      apply lookup_insert_eq.
    + done.
    + etrans; [|apply save_attachments_frame]. by apply insert_subseteq.
    + apply unique_path_first.
  - destruct (save_attachment_frame dest saved w a) as [Hsub _].
    destruct (step dest (saved, w) a) as [saved1 w1]. cbn [snd] in Hsub.
    destruct (IH Hin saved1 w1) as (p & fs & Hp & Hf & Hfs & Hend & Hfirst).
    exists p, fs. split; [done|]. split; [done|]. split; [by etrans|by split].
Qed.

(** C5. An attachment whose sanitized name ends in [.zip], in any case,
    is never listed among the saved attachments, and after its turn the
    archive is gone whenever its removal is not refused: whether the
    archive was corrupt, held no member, was extracted, or a member made
    extraction stop. When the removal is refused, the refusal is
    reported and the archive stays where it was saved. A corrupt archive
    is reported and, its removal done, leaves the files as they were;
    every later attachment that is no archive is saved all the same. *)
Theorem archive_never_retained (w : World) (saved : list Path) (att : Attachment)
    (dest : Path) :
  let clean_name := safe_file_name path_name (or_else (FileName att) s!"attachment") in
  let save_path := unique_path (files w) (joinpath dest clean_name) in
  let r := step dest (saved, w) att in
  endswith (lower clean_name) s!".zip" = true →
  r.1 = saved
  ∧ (SaveAsFile att = None → files r.2 = files w)
  ∧ ∀ data, SaveAsFile att = Some data →
      let fs := (expand' (<[save_path := File data]> (files w)) data dest).2 in
      (refuses fs (Unlink save_path) = false →
       files r.2 = delete save_path fs ∧ files r.2 !! save_path = None)
      ∧ (refuses fs (Unlink save_path) = true →
         files r.2 = fs ∧ files r.2 !! save_path = Some (File data)
         ∧ FailedDelete (name save_path) ∈ console r.2)
      ∧ (zip_open data = Throw BadZipFile →
         CorruptZip (name save_path) ∈ console r.2
         ∧ (refuses fs (Unlink save_path) = false →
            r = (saved, print w (CorruptZip (name save_path)))))
      ∧ ∀ rest att' data',
          att' ∈ rest → SaveAsFile att' = Some data' →
          endswith (lower (clean_name_of att')) s!".zip" = false →
          ∃ p, p ∈ (foldl (step dest) (saved, w) (att :: rest)).1
               ∧ files (foldl (step dest) (saved, w) (att :: rest)).2 !! p
                 = Some (File data').
Proof.
  intros clean_name save_path r Hzip.
  pose proof (unique_path_fresh (files w) (joinpath dest clean_name)) as Hfresh.
  fold save_path in Hfresh.
  split; [|split].
  - unfold r, save_attachment. fold clean_name.
    destruct (SaveAsFile att) as [data|]; [|done]. rewrite Hzip.
    by destruct (expand' _ _ _).
  - intros Hnone. unfold r. by rewrite save_attachment_failed.
  - intros data Hdata fs.
    destruct (save_attachment_zip dest saved w att data Hdata Hzip) as (_ & _ & Hfiles).
    fold clean_name save_path fs r in Hfiles.
    assert (fs !! save_path = Some (File data)) as Hthere.
    { eapply lookup_weaken; [|apply expand_frame]. apply lookup_insert_eq. }
    split; [|split; [|split]].
    + intros Hr. rewrite Hr in Hfiles. rewrite Hfiles. split; [done|].
      apply lookup_delete_eq.
    + intros Hr. rewrite Hr in Hfiles. rewrite Hfiles. split; [done|].
      split; [done|].
      unfold r, save_attachment. fold clean_name save_path.
      rewrite Hdata, Hzip. unfold fs in Hr.
      destruct (expand' _ data dest) as [raised X]. cbn [snd] in Hr.
      destruct raised as [[]|]; cbn [files set_files print]; rewrite Hr;
        cbn [console print snd]; rewrite ?elem_of_cons; auto.
    + intros Hbad.
      assert (expand' (<[save_path:=File data]> (files w)) data dest
              = (Some BadZipFile, <[save_path:=File data]> (files w))) as Hexp.
      { unfold expand. by rewrite Hbad. }
      unfold fs. rewrite Hexp. cbn [snd].
      unfold r, save_attachment. fold clean_name save_path.
      rewrite Hdata, Hzip, Hexp. cbn [files set_files print].
      destruct (refuses (<[save_path:=File data]> (files w)) (Unlink save_path));
        cbn [console print snd].
      * split; [|done]. rewrite !elem_of_cons. auto.
      * split; [apply list_elem_of_here|]. intros _.
        unfold set_files, print. cbn [files lock console].
        by rewrite delete_insert_id.
    + intros rest att' data' Hin Hd' Hz'.
      destruct (plain_attachment_saved dest (att :: rest) saved w att' data')
        as (p & _ & Hp & Hf & _); [by apply list_elem_of_further|done|done|].
      by exists p.
Qed.

End attachments.
(** ** One mail item *)

Lemma extends_refl (dest : Path) (fs : FS) : extends dest fs fs.
Proof. split; [done|]. by intros q []. Qed.

Lemma extends_trans (dest : Path) (fs1 fs2 fs3 : FS) :
  extends dest fs1 fs2 → extends dest fs2 fs3 → extends dest fs1 fs3.
Proof.
  intros [Hs1 Hc1] [Hs2 Hc2]. split; [by etrans|]. intros q Hq.
  destruct (decide (fs3 !! q = fs2 !! q)) as [Heq|Hne].
  - rewrite Heq in Hq. by apply Hc1.
  - apply Hc2 in Hne as [Hnone ?]. split; [|done]. by eapply lookup_weaken_None.
Qed.

Lemma extends_insert_child (dest : Path) (fs : FS) (q : Path) (nd : node) :
  fs !! q = None → child_of dest q → extends dest fs (<[q := nd]> fs).
Proof.
  intros Hq Hc. split; [by apply insert_subseteq|]. intros p Hp.
  destruct (decide (q = p)) as [<-|Hne]; [auto|]. by rewrite lookup_insert_ne in Hp.
Qed.

Lemma ensure_dir_extends (refuses : FS → syscall → bool) (fs fs' : FS) (dest : Path) :
  ensure_dir refuses fs dest = Some fs' → extends dest fs fs'.
Proof.
  intros H. split; [by eapply ensure_dir_mono|]. intros q Hq.
  eapply ensure_dir_changes in Hq as [? ?]; [|done]. auto.
Qed.

Lemma msg_name_child (fs : FS) (dest : Path) (subject : str) :
  child_of dest
    (unique_path fs
       (joinpath dest (or_else (safe_folder_name subject) s!"message" ++ s!".msg"))).
Proof.
  destruct (safe_folder_name_safe subject) as (Hv & _ & Hne & _).
  destruct (or_else_cases (safe_folder_name subject) s!"message") as [[? _]|[_ ->]];
    [done|].
  set (n := safe_folder_name subject ++ s!".msg").
  assert (4 ≤ length n) as Hlen by (unfold n; rewrite length_app; simpl; lia).
  apply unique_path_child.
  - intros E. rewrite E in Hlen. simpl in Hlen. lia.
  - apply Forall_app. split; [done|]. by apply (bool_decide_unpack _).
  - intros E. rewrite E in Hlen. simpl in Hlen. lia.
  - intros E. rewrite E in Hlen. simpl in Hlen. lia.
Qed.

(** The name of the message file is the sanitized subject, which is
    never empty. *)
Lemma msg_name (subject : str) :
  or_else (safe_folder_name subject) s!"message" = safe_folder_name subject.
Proof.
  destruct (safe_folder_name_safe subject) as (_ & _ & Hne & _).
  by destruct (safe_folder_name subject).
Qed.

(** No path inside a folder is on the way to the folder. *)
Lemma joinpath_not_ancestry (dest : Path) (n : str) :
  joinpath dest n ∉ ancestry dest.
Proof.
  unfold ancestry, joinpath. intros (k & E & Hk)%list_elem_of_fmap.
  apply (f_equal length) in E. rewrite length_app, length_take in E.
  cbn [length] in E. lia.
Qed.

(** [first_free] looks at the path and at its candidates only, all of
    them in the same folder. *)
Lemma first_free_agree (fs fs' : FS) (dest : Path) (n : str) (q : Path) :
  (∀ m, fs !! joinpath dest m = fs' !! joinpath dest m) →
  first_free fs (joinpath dest n) q → first_free fs' (joinpath dest n) q.
Proof.
  intros Hag [Hfree Hq].
  assert (∃ m, q = joinpath dest m) as [m ->].
  { destruct Hq as [->|(_ & i & _ & -> & _)]; [by eexists|].
    unfold candidate. rewrite with_name_joinpath. by eexists. }
  split; [by rewrite <-Hag|].
  destruct Hq as [?|(Hp & i & Hi & Hc & Hk)]; [by left|]. right.
  split; [by rewrite <-Hag|]. exists i. split; [done|]. split; [done|].
  intros j Hj. specialize (Hk j Hj). unfold candidate in *.
  rewrite with_name_joinpath in *. by rewrite <-Hag.
Qed.

Section mail.
Context (path_name : str → str) (resolve : Path → option Path)
  (zip_open : str → result (list ZipInfo)) (refuses : FS → syscall → bool).

Local Abbreviation process_mail' := (process_mail path_name resolve zip_open refuses).
Local Abbreviation process_items' :=
  (process_items path_name resolve zip_open refuses).
Local Abbreviation save_attachments' :=
  (save_attachments path_name resolve zip_open refuses).

Lemma save_attachments_extends (w : World) (mail : MailItem) (dest : Path) :
  extends dest (files w) (files (save_attachments' w mail dest).2).
Proof.
  unfold save_attachments.
  destruct (save_attachments_frame path_name resolve zip_open refuses dest
              (Attachments mail) [] w) as [Hs Hc].
  split; [done|]. intros q Hq. apply Hc in Hq as [? ?]. auto.
Qed.

(** The steps of [process_mail] on an accepted item for which
    [ensure_dir] succeeds: the message, then the attachments. *)
Lemma process_mail_steps (st : LoopState) (mail : MailItem)
    (subject entry_id : str) (fs : FS) :
  triage (seen st) mail = Accepted subject entry_id →
  ensure_dir refuses (files (world st)) (joinpath BASE_DIR (safe_folder_name subject))
  = Some fs →
  let dest := joinpath BASE_DIR (safe_folder_name subject) in
  let w1 := print (set_files (world st) fs)
              (Processing subject (safe_folder_name subject)) in
  let w2 := match save_msg (files w1) mail dest subject with
            | Some (_, fs0) => set_files w1 fs0
            | None => print w1 FailedMsg
            end in
  ∃ w, process_mail' st mail
       = (Returned, mkLoop ({[entry_id]} ∪ seen st) (processed st + 1) w)
       ∧ files w = files (save_attachments' w2 mail dest).2
       ∧ lock w = lock (world st)
       ∧ extends dest fs (files w2).
Proof.
  intros Ht He dest w1 w2. unfold process_mail. rewrite Ht. cbv zeta.
  rewrite He. fold dest. fold w1. fold w2.
  assert (extends dest fs (files w2) ∧ lock w2 = lock (world st)) as [H2 Hl2].
  { unfold w2, save_msg. destruct (SaveAs mail); [|split; [apply extends_refl|done]].
    split; [|done]. simpl. apply extends_insert_child.
    - apply unique_path_fresh.
    - apply msg_name_child. }
  pose proof (save_attachments_lock path_name resolve zip_open refuses dest
                (Attachments mail) [] w2) as Hl3.
  fold (save_attachments' w2 mail dest) in Hl3.
  destruct (save_attachments' w2 mail dest) as [saved w3]. cbn [snd] in *.
  eexists. split; [reflexivity|].
  destruct saved; cbn [files lock print]; (split; [done|]);
    (split; [congruence|done]).
Qed.

(** What [process_mail] does to the state on an accepted item for which
    [ensure_dir] succeeds. *)
Lemma process_mail_accepted (st : LoopState) (mail : MailItem)
    (subject entry_id : str) (fs : FS) :
  triage (seen st) mail = Accepted subject entry_id →
  ensure_dir refuses (files (world st)) (joinpath BASE_DIR (safe_folder_name subject))
  = Some fs →
  ∃ w, process_mail' st mail
       = (Returned, mkLoop ({[entry_id]} ∪ seen st) (processed st + 1) w)
       ∧ extends (joinpath BASE_DIR (safe_folder_name subject)) fs (files w)
       ∧ lock w = lock (world st).
Proof.
  intros Ht He.
  destruct (process_mail_steps st mail subject entry_id fs Ht He)
    as (w & Hpm & Hf & Hl & H2).
  exists w. split; [done|]. split; [|done]. rewrite Hf.
  eapply extends_trans; [exact H2|apply save_attachments_extends].
Qed.

Lemma process_mail_other (st : LoopState) (mail : MailItem) :
  (∀ subject entry_id, triage (seen st) mail ≠ Accepted subject entry_id) →
  process_mail' st mail = (Returned, st).
Proof.
  intros H. unfold process_mail. destruct (triage (seen st) mail); try done.
  by destruct (H subject entry_id).
Qed.

(** C8. The folder of an accepted item is [BASE_DIR] with the sanitized
    subject as it is, whether or not a directory of that name exists: it
    is a directory afterwards and no suffix is tried, so items with the
    same sanitized subject share it. Nothing that existed is overwritten
    or removed: every path that changes was free before and is a
    directory on the way to the folder or a child of the folder. The
    files are written, each at the first free path for its name: the
    message, when [SaveAs] gives it, under the sanitized subject with
    [.msg], or under the candidate with the least number from 2 on when
    that name is taken; every attachment that is no archive, when
    [SaveAsFile] gives it, likewise under its sanitized name, counted on
    the files as they are at its turn, which hold all that was there
    before and are all there at the end; and every archive member that
    is extracted likewise under its sanitized base name. *)
Theorem files_never_overwritten (st : LoopState) (mail : MailItem) :
  let r := process_mail' st mail in
  files (world st) ⊆ files (world r.2)
  ∧ (∀ subject entry_id,
       triage (seen st) mail = Accepted subject entry_id → r.1 = Returned →
       let dest := joinpath BASE_DIR (safe_folder_name subject) in
       files (world r.2) !! dest = Some Dir
       ∧ extends dest (files (world st)) (files (world r.2))
       ∧ (∀ data, SaveAs mail = Some data →
            ∃ q, first_free (files (world st))
                   (joinpath dest (safe_folder_name subject ++ s!".msg")) q
                 ∧ files (world r.2) !! q = Some (File data))
       ∧ (∀ att data,
            att ∈ Attachments mail → SaveAsFile att = Some data →
            let clean_name :=
              safe_file_name path_name (or_else (FileName att) s!"attachment") in
            endswith (lower clean_name) s!".zip" = false →
            ∃ q fs, files (world st) ⊆ fs ∧ fs ⊆ files (world r.2)
                    ∧ first_free fs (joinpath dest clean_name) q
                    ∧ files (world r.2) !! q = Some (File data)))
  ∧ (∀ fs fs' member dest q,
       secure_extract_member path_name resolve refuses fs member dest
       = (Value (Some q), fs') →
       ∃ data, member_read member = Bytes data
               ∧ first_free fs
                   (joinpath dest
                      (safe_file_name path_name (path_name (filename member)))) q
               ∧ fs' = <[q := File data]> fs).
Proof.
  cbv zeta. split; [|split].
  - destruct (triage (seen st) mail) as [| | | | |subject entry_id] eqn:Ht;
      try (by rewrite process_mail_other by (by rewrite Ht)).
    destruct (ensure_dir refuses (files (world st))
                (joinpath BASE_DIR (safe_folder_name subject))) as [fs|] eqn:He.
    + destruct (process_mail_accepted st mail subject entry_id fs Ht He)
        as (w & -> & Hext & _). simpl.
      etrans; [by eapply ensure_dir_mono|apply Hext].
    + unfold process_mail. rewrite Ht. cbv zeta. by rewrite He.
  - intros subject entry_id Ht Hret.
    set (dest := joinpath BASE_DIR (safe_folder_name subject)).
    destruct (ensure_dir refuses (files (world st)) dest) as [fs|] eqn:He.
    2: { unfold process_mail in Hret. rewrite Ht in Hret. cbv zeta in Hret.
         fold dest in Hret. by rewrite He in Hret. }
    destruct (process_mail_steps st mail subject entry_id fs Ht He)
      as (w & Hpm & Hf & _ & H2).
    fold dest in Hf, H2. rewrite Hpm. cbn [snd world].
    set (w1 := print (set_files (world st) fs)
                 (Processing subject (safe_folder_name subject))) in *.
    set (w2 := match save_msg (files w1) mail dest subject with
               | Some (_, fs0) => set_files w1 fs0
               | None => print w1 FailedMsg
               end) in *.
    pose proof (ensure_dir_extends _ _ _ _ He) as Hdir.
    pose proof (save_attachments_extends w2 mail dest) as H3.
    rewrite <-Hf in H3.
    pose proof (extends_trans _ _ _ _ H2 H3) as Hext.
    split; [|split; [|split]].
    + eapply lookup_weaken; [|apply Hext].
      destruct (ensure_dir_lookup _ _ _ _ dest He) as [-> _].
      rewrite decide_True; [done|apply ancestry_self].
    + by eapply extends_trans.
    + intros data Hdata.
      set (p := joinpath dest (safe_folder_name subject ++ s!".msg")).
      exists (unique_path fs p). split.
      * apply (first_free_agree fs); [|apply unique_path_first].
        intros m. destruct (ensure_dir_lookup _ _ _ _ (joinpath dest m) He) as [-> _].
        rewrite decide_False; [done|apply joinpath_not_ancestry].
      * eapply lookup_weaken; [|apply H3].
        unfold w2, save_msg. rewrite Hdata, msg_name. fold p.
        cbn [files set_files print]. apply lookup_insert_eq.
    + intros att data Hin Hdata Hzip.
      destruct (plain_attachment_saved path_name resolve zip_open refuses dest
                  (Attachments mail) [] w2 att data Hin Hdata Hzip)
        as (q & fs' & _ & Hq & Hsub & Hend & Hfirst).
      exists q, fs'. split; [|split; [|split; [done|]]].
      * etrans; [apply Hdir|]. etrans; [apply H2|done].
      * rewrite Hf. exact Hend.
      * rewrite Hf. exact Hq.
  - intros fs fs' member dest q Hm.
    unfold secure_extract_member in Hm.
    destruct (is_dir member); [done|]. case_bool_decide; [done|].
    destruct (escapes _ _ _); [done|].
    destruct (member_read member) as [data|e|e]; [|done|];
      (destruct (refuses fs _); [done|]); [|done].
    injection Hm as <- <-. exists data. split; [done|].
    split; [apply unique_path_first|done].
Qed.

End mail.

(** ** A run *)

Lemma triage_seen (seen : gset str) (mail : MailItem) :
  triage seen mail
  = match triage ∅ mail with
    | Accepted subject entry_id =>
        if bool_decide (entry_id ∈ seen) then AlreadySeen
        else Accepted subject entry_id
    | v => v
    end.
Proof.
  unfold triage. case_bool_decide; [done|].
  destruct (Subject mail) as [subject|], (EntryID mail) as [entry_id|]; try done.
  destruct (search SR_SUBJECT_PATTERN subject); simpl; [|done].
  destruct (search RE_PREFIX subject); [done|].
  rewrite (bool_decide_eq_false_2 (entry_id ∈ ∅)) by apply not_elem_of_empty.
  done.
Qed.

(** Items of which none is accepted leave the loop state as it is. *)
Lemma process_items_skip (path_name : str → str) (resolve : Path → option Path)
    (zip_open : str → result (list ZipInfo)) (refuses : FS → syscall → bool)
    (items : list MailItem) (st : LoopState) :
  (∀ mail, mail ∈ items →
     ∀ subject entry_id, triage (seen st) mail ≠ Accepted subject entry_id) →
  process_items path_name resolve zip_open refuses st items = (Returned, st).
Proof.
  intros Hno. induction items as [|mail items IH]; [done|].
  cbn [process_items]. rewrite process_mail_other.
  - apply IH. intros m Hm. apply Hno. by apply list_elem_of_further.
  - apply Hno, list_elem_of_here.
Qed.

Section run.
Context (path_name : str → str) (resolve : Path → option Path)
  (zip_open : str → result (list ZipInfo)) (refuses : FS → syscall → bool)
  (RUNTIME_DIR : Path).

Local Abbreviation process_mail' := (process_mail path_name resolve zip_open refuses).
Local Abbreviation process_items' :=
  (process_items path_name resolve zip_open refuses).
Local Abbreviation process_folder' :=
  (process_folder path_name resolve zip_open refuses RUNTIME_DIR).
Local Abbreviation load_log' := (load_log RUNTIME_DIR).
Local Abbreviation save_log' := (save_log refuses RUNTIME_DIR).

Lemma process_items_app (st : LoopState) (l1 l2 : list MailItem) :
  process_items' st (l1 ++ l2)
  = match process_items' st l1 with
    | (Returned, st') => process_items' st' l2
    | (Raised, st') => (Raised, st')
    end.
Proof.
  revert st. induction l1 as [|mail l1 IH]; intros st; [done|].
  simpl. destruct (process_mail' st mail) as [[] st1]; [apply IH|done].
Qed.

(** C9. An item whose subject or identifier cannot be read is passed
    over: the loop state, and with it the processed set, is what it was,
    and the whole run is the run without that item, so that the log
    written at the end does not hold the item on its account. *)
Theorem unreadable_item_skipped (st : LoopState) (mail : MailItem) :
  Subject mail = None ∨ EntryID mail = None →
  process_mail' st mail = (Returned, st)
  ∧ ∀ before after w,
      process_folder' (before ++ mail :: after) w
      = process_folder' (before ++ after) w.
Proof.
  intros Hbad.
  assert (∀ st, process_mail' st mail = (Returned, st)) as Hskip.
  { intros st0. apply process_mail_other. intros subject entry_id.
    unfold triage. case_bool_decide; [done|].
    destruct Hbad as [-> | ->]; [done|]. by destruct (Subject mail). }
  split; [apply Hskip|]. intros before after w. unfold process_folder.
  rewrite !process_items_app.
  destruct (process_items' _ before) as [[] st1]; [|done].
  simpl. by rewrite Hskip.
Qed.

Lemma load_log_written (fs : FS) (l : list str) :
  load_log' (<[LOG_PATH RUNTIME_DIR := File (encode_utf8 (json_dumps l))]> fs)
  = list_to_set l.
Proof.
  unfold load_log. rewrite lookup_insert_eq, decode_encode_utf8. simpl.
  by rewrite json_loads_dumps.
Qed.

(** What [save_log] gives when it returns. *)
Lemma save_log_Some (fs fs' : FS) (seen : gset str) :
  save_log' fs seen = Some fs' →
  fs' = <[LOG_PATH RUNTIME_DIR := File (encode_utf8 (json_dumps (sorted seen)))]> fs
  ∧ refuses fs (OpenWrite (LOG_PATH RUNTIME_DIR)) = false
  ∧ fs !! LOG_PATH RUNTIME_DIR ≠ Some Dir.
Proof.
  unfold save_log. intros Hsave.
  destruct (fs !! LOG_PATH RUNTIME_DIR) as [[]|];
    destruct (refuses fs _); by simplify_eq.
Qed.

Lemma load_log_saved (fs fs' : FS) (seen : gset str) :
  save_log' fs seen = Some fs' → load_log' fs' = seen.
Proof.
  intros (-> & _)%save_log_Some.
  rewrite load_log_written. apply list_to_set_sorted.
Qed.

(** C10. What [save_log] writes, [load_log] reads back: the set loaded
    from the file is the set saved, no element lost and none added. The
    order of the array carries nothing: any arrangement of the same
    identifiers loads as the same set. *)
Theorem load_log_save_log (fs fs' : FS) (seen : gset str) :
  save_log' fs seen = Some fs' →
  load_log' fs' = seen
  ∧ ∀ l, l ≡ₚ sorted seen →
         load_log' (<[LOG_PATH RUNTIME_DIR := File (encode_utf8 (json_dumps l))]> fs)
         = seen.
Proof.
  intros Hsave. split.
  - apply save_log_Some in Hsave as (-> & _).
    rewrite load_log_written. apply list_to_set_sorted.
  - intros l Hl. rewrite load_log_written, (list_to_set_perm_L _ _ Hl).
    apply list_to_set_sorted.
Qed.

Lemma process_items_seen (items : list MailItem) (st st' : LoopState) :
  process_items' st items = (Returned, st') →
  seen st ⊆ seen st'
  ∧ ∀ mail subject entry_id,
      mail ∈ items → triage ∅ mail = Accepted subject entry_id →
      entry_id ∈ seen st'.
Proof.
  revert st. induction items as [|mail items IH]; intros st; simpl.
  { intros [= <-]. split; [done|]. by intros ??? ?%elem_of_nil. }
  destruct (process_mail' st mail) as [[] st1] eqn:Hm; [|done].
  intros Hrest. destruct (IH _ Hrest) as [Hsub Hin].
  assert (seen st ⊆ seen st1
          ∧ ∀ subject entry_id, triage ∅ mail = Accepted subject entry_id →
                                entry_id ∈ seen st1) as [Hsub1 Hin1].
  { pose proof (triage_seen (seen st) mail) as Hts.
    unfold process_mail in Hm.
    destruct (triage (seen st) mail) as [| | | | |subject entry_id] eqn:Ht.
    6: { cbv zeta in Hm. destruct (ensure_dir _ _ _); [|done].
         destruct (save_attachments _ _ _ _ _ _ _) as [saved w3].
         injection Hm as <-. simpl. split; [apply union_subseteq_r|].
         intros s e Hacc. rewrite Hacc in Hts. case_bool_decide; [done|].
         injection Hts as _ ->. apply elem_of_union_l. by apply elem_of_singleton. }
    all: injection Hm as <-; split; [done|]; intros s e Hacc;
      rewrite Hacc in Hts; by case_bool_decide. }
  split; [by etrans|]. intros m s e [->|Hm']%elem_of_cons Hacc.
  - apply Hsub. by eapply Hin1.
  - by eapply Hin.
Qed.

Lemma process_items_idle (items : list MailItem) (st : LoopState) :
  (∀ mail subject entry_id,
     mail ∈ items → triage ∅ mail = Accepted subject entry_id → entry_id ∈ seen st) →
  (∀ mail, mail ∈ items →
     ∀ subject entry_id, triage (seen st) mail ≠ Accepted subject entry_id)
  ∧ process_items' st items = (Returned, st).
Proof.
  intros Hall.
  assert (∀ mail, mail ∈ items →
            ∀ subject entry_id, triage (seen st) mail ≠ Accepted subject entry_id)
    as Hno.
  { intros mail Hin s e. rewrite triage_seen.
    destruct (triage ∅ mail) as [| | | | |s' e'] eqn:Ht; try done.
    rewrite bool_decide_eq_true_2; [done|]. by eapply Hall. }
  split; [done|]. by apply process_items_skip.
Qed.


End run.

(** ** The run lock *)


(** * Further properties *)

(** ** More on the sanitizers *)

Lemma rstrip_id (p : ascii → bool) (s : str) :
  (∀ c, last s = Some c → p c = false) → rstrip p s = s.
Proof.
  intros H. unfold rstrip. destruct (head (reverse s)) as [c|] eqn:Hh.
  - rewrite (lstrip_id p _ c Hh); [apply reverse_involutive|].
    apply H. by rewrite <-head_reverse.
  - apply head_None in Hh. rewrite Hh. simpl.
    by rewrite <-(reverse_involutive s), Hh.
Qed.

Lemma strip_head (p : ascii → bool) (s : str) (c : ascii) :
  head (strip p s) = Some c → p c = false.
Proof.
  unfold strip. intros H. apply (lstrip_head p s).
  destruct (rstrip_prefix p (lstrip p s)) as [k Hk]. rewrite Hk.
  by destruct (rstrip p (lstrip p s)).
Qed.

(** A string is blank-normal when the only whitespace in it is the space. *)
Lemma sub_ws_from_only_space (b : bool) (s : str) :
  Forall (λ c, isspace c = true → c = " ") (sub_ws_from b s).
Proof.
  revert b. induction s as [|c t IH]; intros b; simpl; [done|].
  destruct (isspace c) eqn:Hc.
  - destruct b; [apply IH|]. constructor; [done|apply IH].
  - constructor; [|apply IH]. intros ?; congruence.
Qed.

Lemma sub_ws_from_fixed (b : bool) (s : str) :
  Forall (λ c, isspace c = true → c = " ") s →
  double_ws s = false →
  (b = true → from_option isspace false (head s) = false) →
  sub_ws_from b s = s.
Proof.
  intros Hsp. revert b. induction Hsp as [|c t Hc _ IH]; intros b Hd Hb; [done|].
  simpl in *. apply orb_false_iff in Hd as [Hd1 Hd2].
  destruct (isspace c) eqn:Hws.
  - destruct b; [by specialize (Hb eq_refl)|].
    rewrite (Hc eq_refl). f_equal. apply IH; [done|]. intros _. by simpl in Hd1.
  - f_equal. apply IH; [done|]. intros [=].
Qed.

Lemma translate_TRANS_fixed (s : str) : Forall valid_char s → translate_TRANS s = s.
Proof.
  unfold translate_TRANS. induction 1 as [|c t Hc _ IH]; [done|].
  simpl. rewrite IH. by rewrite bool_decide_eq_false_2.
Qed.

Lemma prefix_head (s k : str) (c : ascii) :
  s `prefix_of` k → s ≠ [] → head k = Some c → head s = Some c.
Proof. intros [r ->] Hne. destruct s; [done|]. by simpl. Qed.

Lemma only_space_prefix (s k : str) :
  s `prefix_of` k →
  Forall (λ c, isspace c = true → c = " ") k →
  Forall (λ c, isspace c = true → c = " ") s.
Proof. intros [r ->] H. by apply Forall_app in H as [? _]. Qed.

(** The shape of a sanitized folder name, beyond its safety: the only
    whitespace is the single space, and it does not begin with one. *)
Lemma safe_folder_name_shape (text : str) :
  Forall (λ c, isspace c = true → c = " ") (safe_folder_name text)
  ∧ from_option isspace false (head (safe_folder_name text)) = false.
Proof.
  unfold safe_folder_name.
  set (x := strip isspace (translate_TRANS text)).
  destruct (or_else_cases (rstrip space_or_dot (take MAX_NAME (sub_ws x))) s!"message")
    as [[_ ->]|[Hne ->]].
  { split; [|done]. repeat constructor; by vm_compute. }
  assert (rstrip space_or_dot (take MAX_NAME (sub_ws x)) `prefix_of` sub_ws x) as Hpre.
  { etrans; [apply rstrip_prefix|apply prefix_take]. }
  split.
  - eapply only_space_prefix; [exact Hpre|]. apply sub_ws_from_only_space.
  - destruct x as [|d x'] eqn:Ex.
    { destruct Hpre as [k Hk]. symmetry in Hk.
      by apply app_eq_nil in Hk as [? _]. }
    assert (isspace d = false) as Hd.
    { apply (strip_head isspace (translate_TRANS text)). fold x. by rewrite Ex. }
    assert (head (sub_ws (d :: x')) = Some d) as Hh
      by (unfold sub_ws; simpl; by rewrite Hd).
    by rewrite (prefix_head _ _ d Hpre Hne Hh).
Qed.

(** X1. The name safety of [safe_folder_name], for every text: no
    character of [INVALID_FS_CHARS], no doubled blank, never empty, at most
    [MAX_NAME] characters, neither a dot nor a space at the end, no
    whitespace but single spaces, and none at the start. *)
Theorem folder_name_safety (text : str) :
  let r := safe_folder_name text in
  Forall valid_char r
  ∧ double_ws r = false
  ∧ r ≠ []
  ∧ length r ≤ MAX_NAME
  ∧ (∀ c, last r = Some c → c ≠ "." ∧ c ≠ " ")
  ∧ Forall (λ c, isspace c = true → c = " ") r
  ∧ from_option isspace false (head r) = false.
Proof.
  cbv zeta. destruct (safe_folder_name_safe text) as (H1 & H2 & H3 & H4 & H5).
  destruct (safe_folder_name_shape text) as [H6 H7].
  repeat split; try done; intros ->; by apply H5 in H.
Qed.

(** X2. Sanitizing a folder name twice is sanitizing it once. *)
Theorem safe_folder_name_idempotent (text : str) :
  safe_folder_name (safe_folder_name text) = safe_folder_name text.
Proof.
  destruct (safe_folder_name_safe text) as (Hv & Hd & Hne & Hlen & Hlast).
  destruct (safe_folder_name_shape text) as [Hsp Hhead].
  set (r := safe_folder_name text) in *.
  unfold safe_folder_name at 1. fold r.
  rewrite translate_TRANS_fixed by done.
  assert (strip isspace r = r) as ->.
  { unfold strip. destruct r as [|c t] eqn:Er; [done|]. simpl in Hhead.
    rewrite (lstrip_id isspace (c :: t) c) by done.
    apply rstrip_id. intros d Hl. destruct (isspace d) eqn:Hws; [|done].
    apply last_Some_elem_of in Hl as Hin.
    rewrite Forall_forall in Hsp. rewrite (Hsp d Hin Hws) in Hl.
    by apply Hlast in Hl. }
  unfold sub_ws. rewrite sub_ws_from_fixed by done.
  rewrite take_ge by done. rewrite rstrip_id by done.
  by destruct r.
Qed.

(** X3. What [safe_file_name] keeps for every name and every reading of
    [PurePath.name]: no character of [INVALID_FS_CHARS], no doubled blank,
    never empty, at most [MAX_NAME] characters, never [.] nor [..]; so the
    name is one plain path component. *)
Theorem file_name_is_plain_component (path_name : str → str) (n : str) :
  let r := safe_file_name path_name n in
  Forall valid_char r
  ∧ (∀ c, c ∈ r → c ≠ "/" ∧ c ≠ "\" ∧ c ≠ ":")
  ∧ double_ws r = false
  ∧ 0 < length r ≤ MAX_NAME
  ∧ r ≠ s!"." ∧ r ≠ s!"..".
Proof.
  cbv zeta.
  destruct (safe_file_name_safe path_name n) as (Hv & Hd & Hne & Hlen & H1 & H2).
  repeat split; try done.
  - intros ->. rewrite Forall_forall in Hv. apply (Hv _ H). by apply (bool_decide_unpack _).
  - intros ->. rewrite Forall_forall in Hv. apply (Hv _ H). by apply (bool_decide_unpack _).
  - intros ->. rewrite Forall_forall in Hv. apply (Hv _ H). by apply (bool_decide_unpack _).
  - destruct (safe_file_name path_name n); [done|simpl; lia].
Qed.

(** ** More on directories, extraction and attachments *)

Section more_files.
Context (path_name : str → str) (resolve : Path → option Path)
  (zip_open : str → result (list ZipInfo)) (refuses : FS → syscall → bool).

Local Abbreviation step := (save_attachment path_name resolve zip_open refuses).
Local Abbreviation extract_member := (secure_extract_member path_name resolve refuses).
Local Abbreviation extract_all' := (extract_all path_name resolve refuses).

(** X5. Extraction keeps what exists: no node is overwritten or removed,
    and at most one node is added for each member that is not a
    directory entry. *)
Theorem extraction_keeps_existing (fs : FS) (members : list ZipInfo) (dest : Path) :
  fs ⊆ (extract_all path_name resolve refuses fs members dest).2
  ∧ size (extract_all path_name resolve refuses fs members dest).2
    ≤ size fs + length (filter (λ m, is_dir m = false) members).
Proof.
  split; [apply extract_all_mono|].
  revert fs. induction members as [|m ms IH]; intros fs; [simpl; lia|].
  destruct (extract_all_step path_name resolve refuses fs m ms dest)
    as (ms' & Hms' & ->).
  assert (∀ fs, size (extract_all' fs ms' dest).2
                ≤ size fs + length (filter (λ m, is_dir m = false) ms)) as IH'.
  { destruct Hms' as [->| ->]; [exact IH|]. intros fs0. simpl. lia. }
  rewrite filter_cons. destruct (is_dir m) eqn:Hdir.
  - rewrite decide_False by done.
    unfold secure_extract_member. rewrite Hdir. cbn [snd]. apply IH'.
  - rewrite decide_True by done.
    destruct (secure_extract_member_cases path_name resolve refuses fs m dest)
      as [->|(q & data & -> & _ & Hfree & _)].
    + etrans; [apply IH'|]. cbn [length]. lia.
    + etrans; [apply IH'|]. rewrite map_size_insert_None by done.
      cbn [length]. lia.
Qed.

Lemma save_attachment_saved (dest : Path) (saved : list Path) (w : World)
    (att : Attachment) (p : Path) :
  p ∈ (step dest (saved, w) att).1 →
  p ∈ saved
  ∨ ∃ data, SaveAsFile att = Some data
            ∧ files (step dest (saved, w) att).2 !! p = Some (File data)
            ∧ files w !! p = None ∧ child_of dest p.
Proof.
  pose proof (unique_path_fresh (files w)
    (joinpath dest (safe_file_name path_name (or_else (FileName att) s!"attachment"))))
    as Hfresh.
  pose proof (save_path_child path_name (files w) dest
    (or_else (FileName att) s!"attachment")) as Hchild.
  destruct (SaveAsFile att) as [data|] eqn:Hdata.
  2: { rewrite save_attachment_failed by done. by left. }
  destruct (endswith (lower (safe_file_name path_name
                               (or_else (FileName att) s!"attachment"))) s!".zip")
    eqn:Hzip.
  { destruct (save_attachment_zip path_name resolve zip_open refuses dest saved w
                att data Hdata Hzip) as (-> & _). by left. }
  rewrite (save_attachment_plain path_name resolve zip_open refuses dest saved w
             att data Hdata Hzip). cbn [fst snd files set_files].
  intros [Hp|Hp]%elem_of_app; [by left|]. apply list_elem_of_singleton in Hp as ->.
  right. exists data. by rewrite lookup_insert_eq.
Qed.

Lemma save_attachments_saved (dest : Path) (atts : list Attachment)
    (saved : list Path) (w : World) (p : Path) :
  p ∈ (foldl (step dest) (saved, w) atts).1 →
  p ∈ saved
  ∨ ∃ att data, att ∈ atts ∧ SaveAsFile att = Some data
                ∧ files (foldl (step dest) (saved, w) atts).2 !! p = Some (File data)
                ∧ files w !! p = None ∧ child_of dest p.
Proof.
  revert saved w. induction atts as [|att atts IH]; intros saved w; [by left|].
  cbn [foldl]. intros Hp.
  pose proof (save_attachment_saved dest saved w att p) as Hstep.
  destruct (save_attachment_frame path_name resolve zip_open refuses dest saved w att)
    as [Hsub1 _].
  destruct (step dest (saved, w) att) as [saved1 w1]. cbn [fst snd] in *.
  destruct (save_attachments_frame path_name resolve zip_open refuses dest atts
              saved1 w1) as [Hsub _].
  destruct (IH saved1 w1 Hp) as [Hin|(a & data & Ha & Hd & Hf & Hnone & Hc)].
  - destruct (Hstep Hin) as [?|(data & Hd & Hf & Hnone & Hc)]; [by left|].
    right. exists att, data. split; [apply list_elem_of_here|].
    split; [done|]. split; [|done]. by eapply lookup_weaken.
  - right. exists a, data. split; [by apply list_elem_of_further|].
    split; [done|]. split; [done|]. split; [|done].
    by eapply lookup_weaken_None.
Qed.

(** X6. Every path that [save_attachments] returns is a child of the
    folder that was free before, and at the end it holds the bytes of one
    of the attachments: nothing that comes later, the removal of an
    archive included, touches a saved attachment. *)
Theorem saved_attachments_are_kept (w : World) (mail : MailItem) (dest p : Path) :
  let r := save_attachments path_name resolve zip_open refuses w mail dest in
  p ∈ r.1 →
  ∃ att data, att ∈ Attachments mail ∧ SaveAsFile att = Some data
              ∧ files r.2 !! p = Some (File data)
              ∧ files w !! p = None ∧ child_of dest p.
Proof.
  cbv zeta. unfold save_attachments. intros Hp.
  destruct (save_attachments_saved dest (Attachments mail) [] w p Hp) as [Hin|H];
    [by apply elem_of_nil in Hin|done].
Qed.

Lemma save_attachment_console_blind (dest : Path) (saved : list Path)
    (w w' : World) (att : Attachment) :
  files w = files w' → lock w = lock w' →
  (step dest (saved, w) att).1 = (step dest (saved, w') att).1
  ∧ files (step dest (saved, w) att).2 = files (step dest (saved, w') att).2
  ∧ lock (step dest (saved, w) att).2 = lock (step dest (saved, w') att).2.
Proof.
  destruct w as [fs l c], w' as [fs' l' c']. simpl. intros <- <-.
  unfold save_attachment. cbn [files].
  destruct (SaveAsFile att) as [data|]; [|done].
  destruct (endswith _ _); [|done].
  destruct (expand _ _ _ _ _ _ _) as [raised X].
  destruct raised as [[]|]; cbn [files set_files print];
    by destruct (refuses X _).
Qed.

Lemma save_attachments_console_blind (dest : Path) (atts : list Attachment)
    (saved : list Path) (w w' : World) :
  files w = files w' → lock w = lock w' →
  (foldl (step dest) (saved, w) atts).1 = (foldl (step dest) (saved, w') atts).1
  ∧ files (foldl (step dest) (saved, w) atts).2
    = files (foldl (step dest) (saved, w') atts).2
  ∧ lock (foldl (step dest) (saved, w) atts).2
    = lock (foldl (step dest) (saved, w') atts).2.
Proof.
  revert saved w w'. induction atts as [|a atts IH]; intros saved w w' Hf Hl; [done|].
  cbn [foldl].
  destruct (save_attachment_console_blind dest saved w w' a Hf Hl) as (H1 & H2 & H3).
  destruct (step dest (saved, w) a) as [s1 w1], (step dest (saved, w') a) as [s1' w1'].
  simpl in H1. subst s1'. by apply IH.
Qed.

(** X7. An attachment that cannot be saved costs nothing but itself: the
    saved attachments, the files and the lock are what they are without
    it; only the report is added. *)
Theorem failed_attachment_is_passed_over (dest : Path) (before after : list Attachment)
    (att : Attachment) (w : World) :
  SaveAsFile att = None →
  let r := foldl (step dest) ([], w) (before ++ att :: after) in
  let r' := foldl (step dest) ([], w) (before ++ after) in
  r.1 = r'.1 ∧ files r.2 = files r'.2 ∧ lock r.2 = lock r'.2.
Proof.
  intros Hfail. cbv zeta. rewrite !foldl_app. cbn [foldl].
  destruct (foldl (step dest) ([], w) before) as [saved w1].
  rewrite save_attachment_failed by done.
  by apply save_attachments_console_blind.
Qed.

End more_files.

Lemma child_in_parents (dest q : Path) : child_of dest q → dest ∈ parents q.
Proof.
  intros (n & -> & _). unfold parents, joinpath. apply list_elem_of_fmap.
  exists (length dest). split; [by rewrite take_app_length|].
  apply elem_of_seq. rewrite length_app. simpl. lia.
Qed.

Lemma extract_all_app (path_name : str → str) (resolve : Path → option Path)
    (refuses : FS → syscall → bool) (fs : FS) (l1 l2 : list ZipInfo) (dest : Path) :
  extract_all path_name resolve refuses fs (l1 ++ l2) dest
  = match extract_all path_name resolve refuses fs l1 dest with
    | (None, fs') => extract_all path_name resolve refuses fs' l2 dest
    | (Some e, fs') => (Some e, fs')
    end.
Proof.
  revert fs. induction l1 as [|m l1 IH]; intros fs; [done|].
  cbn [app extract_all].
  destruct (secure_extract_member _ _ _ fs m dest) as [[v|e] fs1]; [apply IH|done].
Qed.

(** X8. Where no path resolves to another (no links), the guard skips
    nothing. When every member can be read and no write is refused,
    extraction goes through, and every member that is not a directory
    entry and has a base name makes exactly one new file, members with
    equal names included. The first member that cannot be opened or
    read ends the extraction with its exception: the members before it
    are extracted, those after it are not, and a member whose read
    fails leaves an empty file at the path it was given. *)
Theorem extraction_without_links (path_name : str → str) (resolve : Path → option Path)
    (refuses : FS → syscall → bool) (fs : FS) (members : list ZipInfo) (dest : Path) :
  (∀ p, resolve p = Some p) →
  (∀ fs p, refuses fs (OpenWrite p) = false) →
  Forall (λ m, ∃ data, member_read m = Bytes data) members →
  let named m := is_dir m = false ∧ path_name (filename m) ≠ [] in
  let extracted := extract_all path_name resolve refuses fs members dest in
  extracted.1 = None
  ∧ size extracted.2 = size fs + length (filter named members)
  ∧ ∀ m rest e,
      named m →
      let out_path :=
        unique_path extracted.2
          (joinpath dest (safe_file_name path_name (path_name (filename m)))) in
      (member_read m = OpenRaises e →
       extract_all path_name resolve refuses fs (members ++ m :: rest) dest
       = (Some e, extracted.2))
      ∧ (member_read m = ReadRaises e →
         extract_all path_name resolve refuses fs (members ++ m :: rest) dest
         = (Some e, <[out_path := File []]> extracted.2)).
Proof.
  intros Hid Hw Hread named.
  assert (∀ fs m, named m →
            escapes resolve
              (unique_path fs
                 (joinpath dest (safe_file_name path_name (path_name (filename m)))))
              dest = false) as Hesc.
  { intros fs0 m _. unfold escapes. rewrite !Hid. apply andb_false_iff. left.
    apply bool_decide_eq_false. intros Hno. apply Hno, child_in_parents.
    apply save_path_child. }
  assert (∀ fs,
            (extract_all path_name resolve refuses fs members dest).1 = None
            ∧ size (extract_all path_name resolve refuses fs members dest).2
              = size fs + length (filter named members)) as Hall.
  { clear fs. induction Hread as [|m ms [data Hm] _ IH]; intros fs;
      [simpl; split; [done|lia]|].
    cbn [extract_all]. rewrite filter_cons.
    destruct (decide (named m)) as [H|Hn].
    2: { assert (secure_extract_member path_name resolve refuses fs m dest
                 = (Value None, fs)) as ->; [|apply IH].
         unfold secure_extract_member. destruct (is_dir m) eqn:Hdir; [done|].
         case_bool_decide as Hname; [done|]. by destruct Hn. }
    unfold secure_extract_member. destruct H as [Hdir Hname].
    rewrite Hdir, bool_decide_eq_false_2 by done. cbv zeta.
    rewrite (Hesc fs m) by done. rewrite Hm, Hw.
    destruct (IH (<[unique_path fs
                      (joinpath dest
                         (safe_file_name path_name (path_name (filename m))))
                    := File data]> fs)) as [-> ->].
    split; [done|].
    rewrite map_size_insert_None by apply unique_path_fresh.
    cbn [length]. lia. }
  intros extracted. destruct (Hall fs) as [Hnone Hsize]. fold extracted in Hnone, Hsize.
  split; [done|]. split; [done|]. intros m rest e Hnamed out_path.
  rewrite extract_all_app. fold extracted.
  destruct extracted as [raised fs1]. cbn [fst snd] in *. subst raised.
  cbn [extract_all]. unfold secure_extract_member.
  destruct Hnamed as [Hdir Hname].
  rewrite Hdir, bool_decide_eq_false_2 by done. cbv zeta.
  rewrite (Hesc fs1 m) by done.
  split; intros ->; [done|]. by rewrite Hw.
Qed.

(** ** More on the processed-set store *)

Lemma json_escape_printable (c : ascii) : Forall printable (json_escape c).
Proof.
  destruct c as [[] [] [] [] [] [] [] []];
    apply (bool_decide_unpack _); by vm_compute.
Qed.

Lemma json_string_printable (s : str) : Forall printable (json_string s).
Proof.
  unfold json_string. apply Forall_app. split; [by repeat constructor|].
  apply Forall_app. split; [|by repeat constructor].
  induction s as [|c s IH]; [done|].
  change ((c :: s) ≫= json_escape) with (json_escape c ++ (s ≫= json_escape)).
  apply Forall_app. split; [apply json_escape_printable|done].
Qed.

Lemma join_comma_printable (l : list str) :
  Forall printable (join_comma (json_string <$> l)).
Proof.
  induction l as [|x [|y l] IH]; [done|apply json_string_printable|].
  change (json_string <$> x :: y :: l)
    with (json_string x :: json_string y :: (json_string <$> l)).
  rewrite join_comma_cons. apply Forall_app. split; [apply json_string_printable|].
  apply Forall_app. split; [by repeat constructor|exact IH].
Qed.

Lemma encode_utf8_printable (s : str) : Forall printable s → encode_utf8 s = s.
Proof.
  induction 1 as [|c s Hc _ IH]; [done|].
  change (encode_utf8 (c :: s)) with (utf8_bytes c ++ encode_utf8 s).
  rewrite IH. unfold utf8_bytes.
  assert ((code c <? 128)%N = true) as ->; [|done].
  unfold printable, between in Hc. apply andb_true_iff in Hc as [_ Hc].
  apply N.leb_le in Hc. apply N.ltb_lt. lia.
Qed.

(** X9. [json.dumps] of a list of identifiers, whatever their characters,
    is made of printable ASCII characters only, so that the bytes of the
    log file are the characters of the text. *)
Theorem log_text_is_ascii (l : list str) :
  Forall (λ c, between 32 126 c = true) (json_dumps l)
  ∧ encode_utf8 (json_dumps l) = json_dumps l.
Proof.
  assert (Forall printable (json_dumps l)) as H.
  { unfold json_dumps. apply Forall_app. split; [by repeat constructor|].
    apply Forall_app. split; [apply join_comma_printable|by repeat constructor]. }
  split; [exact H|by apply encode_utf8_printable].
Qed.

Lemma str_leb_total (a b : str) : str_leb a b = true ∨ str_leb b a = true.
Proof.
  revert b. induction a as [|x a IH]; intros [|y b]; simpl; auto.
  destruct (N.ltb_spec (code x) (code y)); [by left|].
  destruct (N.ltb_spec (code y) (code x)); [by right|].
  assert (code x = code y) as -> by lia. rewrite N.eqb_refl. apply IH.
Qed.

Lemma str_leb_trans (a b c : str) :
  str_leb a b = true → str_leb b c = true → str_leb a c = true.
Proof.
  revert b c. induction a as [|x a IH]; intros [|y b] [|z c]; simpl; try done.
  destruct (N.ltb_spec (code x) (code y)), (N.ltb_spec (code y) (code z)),
    (N.ltb_spec (code x) (code z)); try done; try lia.
  - intros _. destruct (N.eqb_spec (code y) (code z)); [lia|done].
  - destruct (N.eqb_spec (code x) (code y)); [lia|done].
  - destruct (N.eqb_spec (code x) (code y)); [|done].
    destruct (N.eqb_spec (code y) (code z)); [|done].
    destruct (N.eqb_spec (code x) (code z)); [apply IH|lia].
Qed.

Global Instance str_le_total : Total str_le.
Proof. intros a b. apply str_leb_total. Qed.

Global Instance str_le_trans : Transitive str_le.
Proof. intros a b c. apply str_leb_trans. Qed.

(** X10. The array that [save_log] writes lists every identifier of the set
    once, in ascending order of the code points. *)
Theorem sorted_lists_each_once_in_order (seen : gset str) :
  StronglySorted str_le (sorted seen)
  ∧ NoDup (sorted seen)
  ∧ length (sorted seen) = size seen
  ∧ ∀ x, x ∈ sorted seen ↔ x ∈ seen.
Proof.
  unfold sorted.
  pose proof (merge_sort_Permutation str_le (elements seen)) as Hperm.
  split; [apply StronglySorted_merge_sort; apply _|].
  split; [rewrite Hperm; apply NoDup_elements|].
  split; [by rewrite Hperm|].
  intros x. rewrite Hperm. apply elem_of_elements.
Qed.

(** ** More on the loop and the run *)

Lemma triage_Accepted_inv (seen : gset str) (mail : MailItem) (subject entry_id : str) :
  triage seen mail = Accepted subject entry_id →
  Class mail = 43%Z ∧ Subject mail = Some subject ∧ EntryID mail = Some entry_id
  ∧ search SR_SUBJECT_PATTERN subject = true ∧ search RE_PREFIX subject = false
  ∧ entry_id ∉ seen.
Proof.
  unfold triage. case_bool_decide as HC; [done|].
  destruct (Subject mail) as [s|], (EntryID mail) as [e|]; try done.
  destruct (search SR_SUBJECT_PATTERN s) eqn:Hsr; simpl; [|done].
  destruct (search RE_PREFIX s) eqn:Hre; [done|]. case_bool_decide; [done|].
  by intros [= <- <-].
Qed.

Section more_runs.
Context (path_name : str → str) (resolve : Path → option Path)
  (zip_open : str → result (list ZipInfo)) (refuses : FS → syscall → bool)
  (RUNTIME_DIR : Path).

Local Abbreviation process_mail' := (process_mail path_name resolve zip_open refuses).
Local Abbreviation process_items' :=
  (process_items path_name resolve zip_open refuses).
Local Abbreviation process_folder' :=
  (process_folder path_name resolve zip_open refuses RUNTIME_DIR).
Local Abbreviation load_log' := (load_log RUNTIME_DIR).
Local Abbreviation save_log' := (save_log refuses RUNTIME_DIR).

(** The three ways in which [process_mail] ends. *)
Lemma process_mail_cases (st : LoopState) (mail : MailItem) :
  (process_mail' st mail = (Returned, st)
   ∧ ∀ s e, triage (seen st) mail ≠ Accepted s e)
  ∨ (∃ s e, triage (seen st) mail = Accepted s e
            ∧ ensure_dir refuses (files (world st)) (joinpath BASE_DIR (safe_folder_name s))
              = None
            ∧ process_mail' st mail = (Raised, st))
  ∨ (∃ s e fs w,
       triage (seen st) mail = Accepted s e
       ∧ ensure_dir refuses (files (world st)) (joinpath BASE_DIR (safe_folder_name s))
         = Some fs
       ∧ process_mail' st mail
         = (Returned, mkLoop ({[e]} ∪ seen st) (processed st + 1) w)
       ∧ extends (joinpath BASE_DIR (safe_folder_name s)) fs (files w)
       ∧ lock w = lock (world st)).
Proof.
  destruct (triage (seen st) mail) as [| | | | |s e] eqn:Ht;
    try (left; split; [apply process_mail_other; by rewrite Ht|done]).
  right.
  destruct (ensure_dir refuses (files (world st)) (joinpath BASE_DIR (safe_folder_name s)))
    as [fs|] eqn:He.
  - right.
    destruct (process_mail_accepted path_name resolve zip_open refuses st mail s e
                fs Ht He)
      as (w & Hpm & Hext & Hl).
    by exists s, e, fs, w.
  - left. exists s, e. split; [done|]. split; [done|].
    unfold process_mail. rewrite Ht. cbv zeta. by rewrite He.
Qed.

(** What the loop keeps, however it ends. *)
Lemma process_items_inv (items : list MailItem) (st st' : LoopState) (o : outcome) :
  process_items' st items = (o, st') →
  files (world st) ⊆ files (world st')
  ∧ lock (world st') = lock (world st)
  ∧ seen st ⊆ seen st'
  ∧ processed st ≤ processed st'
  ∧ size (seen st') = size (seen st) + (processed st' - processed st)
  ∧ ∀ e, e ∈ seen st' →
         e ∈ seen st ∨ ∃ mail s, mail ∈ items ∧ triage ∅ mail = Accepted s e.
Proof.
  revert st. induction items as [|mail items IH]; intros st; simpl.
  { intros [= _ <-]. repeat split; try done; try lia. by left. }
  destruct (process_mail_cases st mail)
    as [[-> Hno]|[(s & e & Ht & He & ->)|(s & e & fs & w & Ht & He & -> & Hext & Hl)]].
  - intros Hrest. destruct (IH _ Hrest) as (H1 & H2 & H3 & H4 & H5 & H6).
    repeat split; try done. intros x Hx. destruct (H6 x Hx) as [?|(m & s & ? & ?)];
      [by left|]. right. exists m, s. split; [by apply list_elem_of_further|done].
  - intros [= _ <-]. repeat split; try done; try lia. by left.
  - intros Hrest. destruct (IH _ Hrest) as (H1 & H2 & H3 & H4 & H5 & H6).
    cbn [world seen processed] in *.
    apply triage_Accepted_inv in Ht as Hinv.
    destruct Hinv as (_ & _ & _ & _ & _ & Hfresh).
    assert (files (world st) ⊆ files w) as Hsub.
    { etrans; [by eapply ensure_dir_mono|apply Hext]. }
    split; [by etrans|]. split; [congruence|].
    split; [etrans; [|exact H3]; apply union_subseteq_r|].
    split; [lia|]. split.
    { rewrite H5, size_union by (by apply disjoint_singleton_l).
      rewrite size_singleton. lia. }
    intros x Hx. destruct (H6 x Hx) as [Hin|(m & s' & ? & ?)].
    + apply elem_of_union in Hin as [->%elem_of_singleton|?]; [|by left].
      right. exists mail, s. split; [apply list_elem_of_here|].
      rewrite triage_seen in Ht. destruct (triage ∅ mail); try done.
      case_bool_decide; [done|]. by injection Ht as -> ->.
    + right. exists m, s'. split; [by apply list_elem_of_further|done].
Qed.

(** X11. An accepted item is marked, whatever happens to its message and
    its attachments: once [ensure_dir] has returned, the item ends as
    processed, its identifier in the set and the count one higher, whether
    or not [SaveAs] and [SaveAsFile] raise. When [ensure_dir] raises, the
    exception leaves the loop with the state as it was. *)
Theorem accepted_item_always_marked (st : LoopState) (mail : MailItem)
    (subject entry_id : str) :
  triage (seen st) mail = Accepted subject entry_id →
  let dest := joinpath BASE_DIR (safe_folder_name subject) in
  let r := process_mail' st mail in
  match ensure_dir refuses (files (world st)) dest with
  | None => r = (Raised, st)
  | Some _ =>
      r.1 = Returned
      ∧ seen r.2 = {[entry_id]} ∪ seen st
      ∧ processed r.2 = processed st + 1
      ∧ lock (world r.2) = lock (world st)
  end.
Proof.
  intros Ht. cbv zeta.
  destruct (process_mail_cases st mail)
    as [[_ Hno]|[(s & e & Ht' & He & ->)|(s & e & fs & w & Ht' & He & -> & _ & Hl)]].
  - by destruct (Hno subject entry_id).
  - rewrite Ht in Ht'. injection Ht' as <- <-. by rewrite He.
  - rewrite Ht in Ht'. injection Ht' as <- <-. by rewrite He.
Qed.

(** X12. The message of an accepted item, when [SaveAs] succeeds, is in the
    folder under the sanitized subject with the extension [.msg], at the
    free path that [unique_path] chose, and it is still there, with its
    bytes, after the attachments have been handled. *)
Theorem message_is_saved_and_kept (st : LoopState) (mail : MailItem)
    (subject entry_id data : str) (fs : FS) :
  triage (seen st) mail = Accepted subject entry_id →
  ensure_dir refuses (files (world st)) (joinpath BASE_DIR (safe_folder_name subject)) = Some fs →
  SaveAs mail = Some data →
  let dest := joinpath BASE_DIR (safe_folder_name subject) in
  let msg_path := unique_path fs (joinpath dest (safe_folder_name subject ++ s!".msg")) in
  files (world (process_mail' st mail).2) !! msg_path = Some (File data)
  ∧ files (world st) !! msg_path = None
  ∧ child_of dest msg_path.
Proof.
  intros Ht He Hdata dest msg_path.
  assert (or_else (safe_folder_name subject) s!"message" = safe_folder_name subject)
    as Hname.
  { destruct (safe_folder_name_safe subject) as (_ & _ & Hne & _).
    by destruct (safe_folder_name subject). }
  pose proof (msg_name_child fs dest subject) as Hchild. rewrite Hname in Hchild.
  pose proof (unique_path_fresh fs (joinpath dest (safe_folder_name subject ++ s!".msg")))
    as Hfresh. fold msg_path in Hfresh, Hchild.
  split; [|split; [|done]].
  - unfold process_mail. rewrite Ht. cbv zeta. rewrite He. fold dest.
    unfold save_msg. rewrite Hdata, Hname. cbn [files set_files print].
    fold msg_path.
    set (w2 := set_files _ (<[msg_path:=File data]> fs)).
    pose proof (save_attachments_extends path_name resolve zip_open refuses w2 mail
                  dest) as [Hsub _].
    destruct (save_attachments path_name resolve zip_open refuses w2 mail dest)
      as [saved w3].
    assert (files w3 !! msg_path = Some (File data)) as Hkept.
    { eapply lookup_weaken; [|exact Hsub]. apply lookup_insert_eq. }
    by destruct saved.
  - eapply lookup_weaken_None; [exact Hfresh|]. by eapply ensure_dir_mono.
Qed.

(** X13. The log after a run that returns holds the identifiers that the
    log held before and the identifiers of the items of the run that
    pass the classification, and no other. *)
Theorem log_after_run (items : list MailItem) (w w1 : World) :
  process_folder' items w = (Returned, w1) →
  ∀ e, e ∈ load_log' (files w1)
       ↔ e ∈ load_log' (files w)
         ∨ ∃ mail subject, mail ∈ items ∧ triage ∅ mail = Accepted subject e.
Proof.
  unfold process_folder.
  destruct (process_items' _ items) as [[] st] eqn:Hrun; [|done].
  destruct (save_log' (files (world st)) (seen st)) as [fs|] eqn:Hsave; [|done].
  intros [= <-] e. cbn [files print set_files].
  assert (load_log' fs = seen st) as -> by (by eapply load_log_saved).
  destruct (process_items_inv _ _ _ _ Hrun) as (_ & _ & Hsub & _ & _ & Hfrom).
  destruct (process_items_seen path_name resolve zip_open refuses _ _ _ Hrun)
    as [_ Hin].
  split; [apply Hfrom|]. intros [He|(mail & s & Hm & Ht)].
  - by apply Hsub.
  - by eapply Hin.
Qed.

(** X14. The number that a run reports is the number of identifiers that
    the run added to the log: an identifier met twice in one run counts
    once. *)
Theorem reported_count_is_log_growth (items : list MailItem) (w w1 : World) :
  process_folder' items w = (Returned, w1) →
  ∃ n, head (console w1) = Some (Done n)
       ∧ size (load_log' (files w1)) = size (load_log' (files w)) + n.
Proof.
  unfold process_folder.
  destruct (process_items' _ items) as [[] st] eqn:Hrun; [|done].
  destruct (save_log' (files (world st)) (seen st)) as [fs|] eqn:Hsave; [|done].
  intros [= <-]. exists (processed st). split; [done|]. cbn [files print set_files].
  assert (load_log' fs = seen st) as -> by (by eapply load_log_saved).
  destruct (process_items_inv _ _ _ _ Hrun) as (_ & _ & _ & _ & Hsize & _).
  cbn [seen processed] in Hsize. lia.
Qed.

(** X15. A run never overwrites or removes anything but the log: every
    node other than the log that exists before a run exists unchanged
    after it, however the run ends. *)
Theorem run_keeps_existing_files (items : list MailItem) (w w1 : World) (o : outcome)
    (q : Path) (nd : node) :
  process_folder' items w = (o, w1) →
  q ≠ LOG_PATH RUNTIME_DIR →
  files w !! q = Some nd →
  files w1 !! q = Some nd.
Proof.
  unfold process_folder.
  destruct (process_items' _ items) as [o' st] eqn:Hrun.
  destruct (process_items_inv _ _ _ _ Hrun) as (Hsub & _). cbn [world] in Hsub.
  intros Hres Hq Hnd.
  assert (files (world st) !! q = Some nd) as Hst by (by eapply lookup_weaken).
  destruct o'; [|by injection Hres as _ <-].
  destruct (save_log' (files (world st)) (seen st)) as [fs|] eqn:Hsave;
    [|by injection Hres as _ <-].
  apply save_log_Some in Hsave as (-> & _). injection Hres as _ <-.
  cbn [files print set_files]. by rewrite lookup_insert_ne.
Qed.


(** X17. An item that is no mail item, whose subject holds no tracking
    number or whose subject begins with the reply marker leaves no trace:
    the run is the run without it. *)
Theorem ignored_item_leaves_no_trace (mail : MailItem) (before after : list MailItem)
    (w : World) :
  Class mail ≠ 43%Z
  ∨ (∃ subject, Subject mail = Some subject
                ∧ (search SR_SUBJECT_PATTERN subject = false
                   ∨ search RE_PREFIX subject = true)) →
  process_folder' (before ++ mail :: after) w = process_folder' (before ++ after) w.
Proof.
  intros Hign.
  assert (∀ st, process_mail' st mail = (Returned, st)) as Hskip.
  { intros st. apply process_mail_other. intros s e Ht.
    apply triage_Accepted_inv in Ht as (HC & HS & _ & Hsr & Hre & _).
    destruct Hign as [?|(s' & HS' & [?|?])]; [done|..]; simplify_eq; congruence. }
  unfold process_folder. rewrite !process_items_app.
  destruct (process_items' _ before) as [[] st1]; [|done].
  simpl. by rewrite Hskip.
Qed.

(** X18. An item whose identifier is in the log at the start of a run is
    never processed again: the run is the run without it, whatever its
    subject and wherever it stands among the items. *)
Theorem logged_item_is_never_reprocessed (mail : MailItem) (entry_id : str)
    (before after : list MailItem) (w : World) :
  EntryID mail = Some entry_id →
  entry_id ∈ load_log' (files w) →
  process_folder' (before ++ mail :: after) w = process_folder' (before ++ after) w.
Proof.
  intros HE Hlog. unfold process_folder. rewrite !process_items_app.
  destruct (process_items' _ before) as [[] st1] eqn:Hrun; [|done].
  destruct (process_items_inv _ _ _ _ Hrun) as (_ & _ & Hsub & _). cbn [seen] in Hsub.
  simpl. rewrite process_mail_other; [done|].
  intros s e Ht. apply triage_Accepted_inv in Ht as (_ & _ & HE' & _ & _ & Hfresh).
  rewrite HE in HE'. injection HE' as <-. apply Hfresh. by apply Hsub.
Qed.

End more_runs.

(** ** More on the run lock *)

(** X19. A run that got past the marker leaves none, however its block
    ends, when the operating system lets the marker be closed and
    removed at the end; the run after it is then never turned away,
    whatever the operating system does to it. *)
Theorem finished_run_leaves_no_marker (refuses refuses2 : FS → syscall → bool)
    (RUNTIME_DIR : Path) (now : Q) (body : World → outcome * World)
    (w w' : World) (o : outcome) :
  single_instance_lock refuses RUNTIME_DIR now body w = (Finished o, w') →
  refuses (files w') (Close (LOCK_PATH RUNTIME_DIR)) = false →
  refuses (files w') (Unlink (LOCK_PATH RUNTIME_DIR)) = false →
  lock w' = None
  ∧ ∀ now' body',
      ∃ o', (single_instance_lock refuses2 RUNTIME_DIR now' body' w').1 = Finished o'.
Proof.
  intros Hrun Hclose Hunlink.
  assert (lock w' = None) as Hfree.
  { unfold single_instance_lock in Hrun.
    destruct (lock (clear_stale_lock refuses RUNTIME_DIR now w)) eqn:Hl; [done|].
    destruct (refuses _ (OpenExcl _)); [by injection Hrun as _ <-|].
    destruct (body _) as [o1 w1].
    destruct (refuses (files w1) (Close _) || refuses (files w1) (Unlink _)) eqn:Hr.
    - injection Hrun as _ <-. by rewrite Hclose, Hunlink in Hr.
    - by injection Hrun as _ <-. }
  split; [done|]. intros now' body'.
  unfold single_instance_lock, clear_stale_lock. rewrite Hfree. cbv zeta.
  rewrite Hfree. destruct (refuses2 _ (OpenExcl _)); [by eexists|].
  destruct (body' _) as [o' w'']. destruct (_ || _); by exists o'.
Qed.

(** X20. A run that is turned away changes nothing but the console: the
    files are as they were and the marker keeps its time stamp, so that
    runs that keep arriving do not keep a dead marker alive. *)
Theorem turned_away_run_changes_nothing (refuses : FS → syscall → bool)
    (RUNTIME_DIR : Path) (now : Q) (body : World → outcome * World)
    (w w' : World) (status : Z) :
  single_instance_lock refuses RUNTIME_DIR now body w = (SystemExit status, w') →
  status = 0%Z ∧ files w' = files w ∧ lock w' = lock w ∧ is_Some (lock w).
Proof.
  intros Hrun. unfold single_instance_lock in Hrun.
  assert ((files (clear_stale_lock refuses RUNTIME_DIR now w) = files w
           ∧ lock (clear_stale_lock refuses RUNTIME_DIR now w) = lock w)
          ∨ lock (clear_stale_lock refuses RUNTIME_DIR now w) = None) as Hc.
  { unfold clear_stale_lock. destruct (lock w) as [mtime|] eqn:Hlock; [|by left].
    destruct (refuses _ (Stat _)); [by left|]. cbv zeta.
    destruct (Qlt_le_dec _ _); [|by left].
    destruct (refuses _ (Unlink _)); [by left|by right]. }
  destruct (lock (clear_stale_lock refuses RUNTIME_DIR now w)) as [t|] eqn:Hl.
  - injection Hrun as <- <-. cbn [files lock print].
    destruct Hc as [[Hf Hk]|?]; [|done]. rewrite Hf, Hl, <-Hk. by eauto.
  - destruct (refuses _ (OpenExcl _)); [done|].
    destruct (body _) as [o1 w1]. by destruct (_ || _).
Qed.

(** ** More on the classification *)

Lemma like_R (c : ascii) : like c "R" → isspace c = false ∧ lower_char c = "r".
Proof.
  unfold like. destruct c as [[] [] [] [] [] [] [] []];
    vm_compute; intros H; solve [by split | discriminate H].
Qed.

Lemma lstrip_app_all (p : ascii → bool) (ws : str) (c : ascii) (t : str) :
  all p ws → p c = false → lstrip p (ws ++ c :: t) = c :: t.
Proof.
  intros Hws Hc. induction Hws as [|d ws Hd _ IH]; simpl; [by rewrite Hc|].
  by rewrite Hd.
Qed.

(** X21. Only a subject whose first character after the leading whitespace
    is R or r can be taken for a reply; forwards and every other subject
    pass the reply filter. *)
Theorem reply_filter_needs_leading_R (subject : str) :
  (∀ c, head (lstrip isspace subject) = Some c → lower_char c ≠ "r") →
  search RE_PREFIX subject = false.
Proof.
  intros Hfirst. destruct (search RE_PREFIX subject) eqn:Hs; [|done].
  apply search_RE_PREFIX in Hs
    as (ws & c1 & c2 & g1 & b & g2 & rest & -> & Hws & Hc1 & _).
  apply like_R in Hc1 as [Hsp Hr].
  destruct (Hfirst c1); [|done]. by rewrite lstrip_app_all.
Qed.

(** X22. A tracking number needs ten characters: no subject shorter than
    that is accepted. *)
Theorem short_subject_is_never_accepted (seen : gset str) (mail : MailItem)
    (subject : str) :
  Subject mail = Some subject → length subject < 10 →
  ∀ s e, triage seen mail ≠ Accepted s e.
Proof.
  intros HS Hlen s e Ht.
  apply triage_Accepted_inv in Ht as (_ & HS' & _ & Hsr & _).
  rewrite HS in HS'. injection HS' as <-.
  apply search_SR_SUBJECT_PATTERN in Hsr
    as (pre & c1 & c2 & ds & post & -> & _ & _ & _ & Hn & _).
  rewrite length_app in Hlen. simpl in Hlen. rewrite length_app in Hlen. lia.
Qed.

(** ** The sanitizers on examples *)

Example safe_folder_name_example :
  safe_folder_name s!"A/B:C*D?" = s!"A B C D".
Proof. reflexivity. Qed.

(** C3. The name-safety claim fails on [safe_file_name]: the trailing dots
    and spaces are stripped before the name is cut to [MAX_NAME], so the
    cut can end on a dot. A name of 300 characters, 149 times [a], a dot
    and 150 times [b], becomes 149 times [a] and the dot, whereas
    [safe_folder_name], which strips after the cut, gives 149 times [a]. *)
Lemma safe_file_name_trailing_dot :
  let long := replicate 149 "a" ++ "." :: replicate 150 "b" in
  length long = 300
  ∧ safe_file_name final_component long = replicate 149 "a" ++ ["."]
  ∧ last (safe_file_name final_component long) = Some "."
  ∧ safe_folder_name long = replicate 149 "a".
Proof. vm_compute. done. Qed.

(** The same slip without any cut: the tab is no character of
    [rstrip(" .")], and collapsing turns it into a trailing space. *)
Example safe_file_name_trailing_space :
  safe_file_name final_component ["a"; "009"; "."] = s!"a ".
Proof. reflexivity. Qed.

(** ** Instances *)

Lemma triage_accepts_witness :
  let mail := mkMailItem 43 (Some s!"FW: SR12345678") (Some s!"id") [] None in
  triage ∅ mail = Accepted s!"FW: SR12345678" s!"id"
  ↔ contains_tracking_number s!"FW: SR12345678"
    ∧ ¬ begins_with_spaced_reply_marker s!"FW: SR12345678".
Proof.
  apply triage_accepts; [reflexivity|reflexivity|reflexivity|].
  apply not_elem_of_empty.
Defined.

Lemma unique_path_first_free_witness :
  let p := [s!"d"; s!"a.txt"] in
  let fs : FS := <[p := File []]> (<[ [s!"d"; s!"a_2.txt"] := Dir ]> ∅) in
  unique_path fs p = [s!"d"; s!"a_3.txt"]
  ∧ ((exists_ fs p = false → unique_path fs p = p)
     ∧ (exists_ fs p = true →
        ∃ i, 2 ≤ i
             ∧ unique_path fs p
               = take (length p - 1) p ++ [stem p ++ s!"_" ++ str_of_nat i ++ suffix p]
             ∧ ∀ j, 2 ≤ j < i → exists_ fs (candidate p j) = true)
     ∧ exists_ fs (unique_path fs p) = false
     ∧ ∀ fuel, size fs < fuel → unique_path_fuel fuel fs p = Some (unique_path fs p)).
Proof.
  split; [by vm_compute|]. apply unique_path_first_free. by vm_compute.
Defined.



(** The archive of the specification: [data.zip] with [a.txt] and [b.txt]
    leaves the two members and no archive; the corrupt [broken.ZIP]
    leaves nothing; [notes.txt] is kept. *)
Example archive_container_removed :
  let w1 := (demo_process_folder [demo_mail] empty_world).2 in
  let dest := joinpath BASE_DIR s!"FW SR12345678 survey" in
  files w1 !! joinpath dest s!"a.txt" = Some (File s!"A")
  ∧ files w1 !! joinpath dest s!"b.txt" = Some (File s!"B")
  ∧ files w1 !! joinpath dest s!"notes.txt" = Some (File s!"hello")
  ∧ files w1 !! joinpath dest s!"FW SR12345678 survey.msg" = Some (File s!"MSG")
  ∧ files w1 !! joinpath dest s!"data.zip" = None
  ∧ files w1 !! joinpath dest s!"broken.ZIP" = None
  ∧ elements (load_log demo_runtime_dir (files w1)) = [s!"id-1"].
Proof. vm_compute. repeat split; exact eq_refl. Qed.

(** The archive of the specification with members that try to leave the
    folder: their directory part is dropped and they land in the folder. *)
Example traversal_members_land_inside :
  let members := [mkZipInfo s!"../../evil.txt" (Bytes s!"E");
                  mkZipInfo s!"/etc/passed.txt" (Bytes s!"P");
                  mkZipInfo s!"ok.txt" (Bytes s!"K")] in
  let fs := (extract_all final_component no_links never_refuses ∅ members [s!"d"]).2 in
  fs !! [s!"d"; s!"evil.txt"] = Some (File s!"E")
  ∧ fs !! [s!"d"; s!"passed.txt"] = Some (File s!"P")
  ∧ fs !! [s!"d"; s!"ok.txt"] = Some (File s!"K")
  ∧ size fs = 3.
Proof. vm_compute. repeat split; exact eq_refl. Qed.

Lemma extraction_stays_inside_witness :
  let fs : FS := {[ [s!"d"] := Dir ]} in
  let dest := [s!"d"] in
  let evil := mkZipInfo s!"../../evil.txt" (Bytes s!"E") in
  let link := mkZipInfo s!"link.txt" (Bytes s!"L") in
  let ok := mkZipInfo s!"ok.txt" (Bytes s!"K") in
  (fs !! [s!"d"; s!"evil.txt"] = None
   ∧ child_of dest [s!"d"; s!"evil.txt"]
   ∧ resolved_inside one_link [s!"d"; s!"evil.txt"] dest)
  ∧ (secure_extract_member final_component one_link never_refuses fs link dest
     = (Value None, fs)
     ∧ extract_all final_component one_link never_refuses fs [link; ok] dest
       = extract_all final_component one_link never_refuses fs [ok] dest).
Proof.
  intros fs dest evil link ok.
  destruct (extraction_stays_inside final_component one_link never_refuses fs dest)
    as [H1 H2].
  split.
  - apply (H1 [evil]). by vm_compute.
  - apply (H2 link [ok]). by vm_compute.
Defined.

Lemma archive_never_retained_witness :
  let w := demo_folder_world in
  let att := mkAttachment s!"broken.ZIP" (Some s!"junk") in
  let clean_name := safe_file_name final_component s!"broken.ZIP" in
  let save_path := unique_path (files w) (joinpath [s!"d"] clean_name) in
  let r := save_attachment final_component no_links demo_zip_open never_refuses
             [s!"d"] ([], w) att in
  endswith (lower clean_name) s!".zip" = true
  ∧ r.1 = []
  ∧ files r.2 !! save_path = None
  ∧ CorruptZip (name save_path) ∈ console r.2
  ∧ r = ([], print w (CorruptZip (name save_path))).
Proof.
  intros w att clean_name save_path r.
  assert (endswith (lower clean_name) s!".zip" = true) as Hzip by (by vm_compute).
  destruct (archive_never_retained final_component no_links demo_zip_open
              never_refuses w [] att [s!"d"] Hzip) as (Hlist & _ & Hdata).
  destruct (Hdata s!"junk" eq_refl) as (Hgone & _ & Hbad & _).
  destruct (Hgone eq_refl) as [_ Hnone].
  destruct (Hbad eq_refl) as [Hreport Hstate].
  split; [exact Hzip|]. split; [exact Hlist|]. split; [exact Hnone|].
  split; [exact Hreport|]. exact (Hstate eq_refl).
Defined.

(** C5 as it is worded fails: the removal of the archive can be refused,
    which the program catches and reports. Here every removal is
    refused: the archive [data.zip] is extracted and stays, the corrupt
    [broken.ZIP] stays, and [notes.txt] is saved. *)
Lemma archive_kept_when_removal_refused :
  let r := save_attachments final_component no_links demo_zip_open refuses_unlink
             demo_folder_world demo_mail [s!"d"] in
  files r.2 !! [s!"d"; s!"data.zip"] = Some (File s!"PK-demo")
  ∧ files r.2 !! [s!"d"; s!"a.txt"] = Some (File s!"A")
  ∧ files r.2 !! [s!"d"; s!"broken.ZIP"] = Some (File s!"junk")
  ∧ r.1 = [[s!"d"; s!"notes.txt"]]
  ∧ console r.2 = [FailedDelete s!"broken.ZIP"; CorruptZip s!"broken.ZIP";
                   FailedDelete s!"data.zip"].
Proof. vm_compute. repeat split; exact eq_refl. Qed.

Lemma demo_twin_returns :
  (process_mail final_component no_links demo_zip_open never_refuses
     (mkLoop ∅ 0 demo_taken_world) demo_twin).1 = Returned.
Proof. by vm_compute. Qed.

Lemma files_never_overwritten_witness :
  let st := mkLoop ∅ 0 demo_taken_world in
  let r := process_mail final_component no_links demo_zip_open never_refuses
             st demo_twin in
  let msg := joinpath demo_dest s!"FW SR12345678 survey.msg" in
  let notes := joinpath demo_dest s!"notes.txt" in
  (files (world r.2) !! demo_dest = Some Dir
   ∧ extends demo_dest (files (world st)) (files (world r.2))
   ∧ (∃ q, first_free (files (world st)) msg q
           ∧ files (world r.2) !! q = Some (File s!"MSG2"))
   ∧ (∃ q fs, files (world st) ⊆ fs ∧ fs ⊆ files (world r.2)
              ∧ first_free fs notes q
              ∧ files (world r.2) !! q = Some (File s!"again")))
  ∧ files (world r.2) !! msg = Some (File s!"MSG")
  ∧ files (world r.2) !! candidate msg 2 = Some (File s!"MSG2")
  ∧ files (world r.2) !! notes = Some (File s!"hello")
  ∧ files (world r.2) !! candidate notes 2 = Some (File s!"again").
Proof.
  intros st r msg notes. split.
  - destruct (files_never_overwritten final_component no_links demo_zip_open
                never_refuses st demo_twin) as (_ & Hitem & _).
    destruct (Hitem s!"FW: SR12345678 survey" s!"id-9" eq_refl demo_twin_returns)
      as (Hdir & Hext & Hmsg & Hatt).
    split; [exact Hdir|]. split; [exact Hext|]. split.
    + exact (Hmsg s!"MSG2" eq_refl).
    + apply (Hatt (mkAttachment s!"notes.txt" (Some s!"again")) s!"again");
        [apply list_elem_of_here|reflexivity|by vm_compute].
  - vm_compute. repeat split; exact eq_refl.
Defined.

Lemma unreadable_item_skipped_witness :
  let st := mkLoop ∅ 0 empty_world in
  process_mail final_component no_links demo_zip_open never_refuses st
    demo_unreadable
  = (Returned, st)
  ∧ ∀ before after w,
      demo_process_folder (before ++ demo_unreadable :: after) w
      = demo_process_folder (before ++ after) w.
Proof.
  apply (unreadable_item_skipped final_component no_links demo_zip_open
           never_refuses demo_runtime_dir (mkLoop ∅ 0 empty_world) demo_unreadable).
  by left.
Defined.

Lemma load_log_save_log_witness :
  let ids : gset str := {[ s!"id-2"; s!"id-1" ]} in
  let log := LOG_PATH demo_runtime_dir in
  let fs' : FS := {[ log := File (encode_utf8 (json_dumps (sorted ids))) ]} in
  load_log demo_runtime_dir fs' = ids
  ∧ ∀ l, l ≡ₚ sorted ids →
         load_log demo_runtime_dir
           (<[log := File (encode_utf8 (json_dumps l))]> ∅)
         = ids.
Proof.
  intros ids log fs'.
  apply (load_log_save_log never_refuses demo_runtime_dir ∅ fs' ids).
  unfold save_log. rewrite lookup_empty. reflexivity.
Defined.



(** The boundary of the lock: at an age of exactly fifteen minutes the
    marker still holds. *)
Example lock_at_threshold_holds :
  let held := mkWorld ∅ (Some (inject_Z 1000)) [] in
  (main final_component no_links demo_zip_open never_refuses demo_runtime_dir
     (inject_Z 1900) [demo_mail] held).1 = SystemExit 0.
Proof. vm_compute. reflexivity. Qed.

(** ** Instances of the further properties *)

Lemma saved_attachments_are_kept_witness :
  let r := save_attachments final_component no_links demo_zip_open never_refuses
             demo_folder_world demo_mail [s!"d"] in
  ∃ att data, att ∈ Attachments demo_mail ∧ SaveAsFile att = Some data
              ∧ files r.2 !! [s!"d"; s!"notes.txt"] = Some (File data)
              ∧ files demo_folder_world !! [s!"d"; s!"notes.txt"] = None
              ∧ child_of [s!"d"] [s!"d"; s!"notes.txt"].
Proof.
  apply (saved_attachments_are_kept final_component no_links demo_zip_open
           never_refuses demo_folder_world demo_mail [s!"d"] [s!"d"; s!"notes.txt"]).
  apply (bool_decide_unpack _). by vm_compute.
Defined.

Lemma failed_attachment_is_passed_over_witness :
  let lost := mkAttachment s!"lost.bin" None in
  let notes := mkAttachment s!"notes.txt" (Some s!"hello") in
  let step :=
    save_attachment final_component no_links demo_zip_open never_refuses [s!"d"] in
  let r := foldl step ([], demo_folder_world) ([notes] ++ lost :: [notes]) in
  let r' := foldl step ([], demo_folder_world) ([notes] ++ [notes]) in
  r.1 = r'.1 ∧ files r.2 = files r'.2 ∧ lock r.2 = lock r'.2.
Proof.
  intros lost notes step.
  by apply (failed_attachment_is_passed_over final_component no_links demo_zip_open
              never_refuses [s!"d"] [notes] [notes] lost demo_folder_world).
Defined.

Lemma accepted_item_always_marked_witness :
  let st := mkLoop ∅ 0 empty_world in
  let dest := joinpath BASE_DIR (safe_folder_name s!"FW: SR12345678 survey") in
  let r := process_mail final_component no_links demo_zip_open never_refuses st
             demo_mail in
  match ensure_dir never_refuses (files (world st)) dest with
  | None => r = (Raised, st)
  | Some _ =>
      r.1 = Returned
      ∧ seen r.2 = {[ s!"id-1" ]} ∪ seen st
      ∧ processed r.2 = processed st + 1
      ∧ lock (world r.2) = lock (world st)
  end.
Proof.
  apply (accepted_item_always_marked final_component no_links demo_zip_open
           never_refuses (mkLoop ∅ 0 empty_world) demo_mail
           s!"FW: SR12345678 survey" s!"id-1").
  by vm_compute.
Defined.

Lemma demo_ensure_dir_ok :
  is_Some (ensure_dir never_refuses ∅
             (joinpath BASE_DIR (safe_folder_name s!"FW: SR12345678 survey"))).
Proof. apply (bool_decide_unpack _). by vm_compute. Qed.

Lemma message_is_saved_and_kept_witness :
  let st := mkLoop ∅ 0 empty_world in
  let dest := joinpath BASE_DIR (safe_folder_name s!"FW: SR12345678 survey") in
  let fs := default ∅ (ensure_dir never_refuses ∅ dest) in
  let msg_path :=
    unique_path fs (joinpath dest (safe_folder_name s!"FW: SR12345678 survey" ++ s!".msg")) in
  files (world (process_mail final_component no_links demo_zip_open never_refuses
                  st demo_mail).2)
    !! msg_path = Some (File s!"MSG")
  ∧ files (world st) !! msg_path = None
  ∧ child_of dest msg_path.
Proof.
  intros st dest fs.
  apply (message_is_saved_and_kept final_component no_links demo_zip_open
           never_refuses st demo_mail s!"FW: SR12345678 survey" s!"id-1" s!"MSG" fs).
  - by vm_compute.
  - unfold fs, st, dest. cbn [world files empty_world].
    destruct demo_ensure_dir_ok as [fs0 E]. by rewrite E.
  - reflexivity.
Defined.

Lemma demo_run_returns :
  (demo_process_folder [demo_mail; demo_mail] empty_world).1 = Returned.
Proof. by vm_compute. Qed.

Lemma log_after_run_witness :
  let items := [demo_mail; demo_mail] in
  let w1 := (demo_process_folder items empty_world).2 in
  s!"id-1" ∈ load_log demo_runtime_dir (files w1)
  ↔ s!"id-1" ∈ load_log demo_runtime_dir (files empty_world)
    ∨ ∃ mail subject, mail ∈ items ∧ triage ∅ mail = Accepted subject s!"id-1".
Proof.
  intros items w1.
  apply (log_after_run final_component no_links demo_zip_open never_refuses
           demo_runtime_dir items empty_world w1).
  pose proof demo_run_returns as Hret.
  unfold w1, items, demo_process_folder in *.
  destruct (process_folder _ _ _ _ _ _ empty_world) as [o w].
  simpl in *. by rewrite Hret.
Defined.

Lemma reported_count_is_log_growth_witness :
  let items := [demo_mail; demo_mail] in
  let w1 := (demo_process_folder items empty_world).2 in
  ∃ n, head (console w1) = Some (Done n)
       ∧ size (load_log demo_runtime_dir (files w1))
         = size (load_log demo_runtime_dir (files empty_world)) + n.
Proof.
  intros items w1.
  apply (reported_count_is_log_growth final_component no_links demo_zip_open never_refuses
           demo_runtime_dir items empty_world w1).
  pose proof demo_run_returns as Hret.
  unfold w1, items, demo_process_folder in *.
  destruct (process_folder _ _ _ _ _ _ empty_world) as [o w].
  simpl in *. by rewrite Hret.
Defined.

(** The same item twice in one run counts once. *)
Example item_met_twice_counts_once :
  head (console (demo_process_folder [demo_mail; demo_mail] empty_world).2)
  = Some (Done 1).
Proof. vm_compute. exact eq_refl. Qed.

Lemma run_keeps_existing_files_witness :
  let r := demo_process_folder [demo_mail] kept_file_world in
  files r.2 !! [s!"keep.txt"] = Some (File s!"x").
Proof.
  intros r.
  apply (run_keeps_existing_files final_component no_links demo_zip_open
           never_refuses demo_runtime_dir [demo_mail] kept_file_world r.2 r.1).
  - unfold r, demo_process_folder. by destruct (process_folder _ _ _ _ _ _ _).
  - intros H. vm_compute in H. discriminate H.
  - by vm_compute.
Defined.



Lemma ignored_item_leaves_no_trace_witness :
  demo_process_folder ([demo_mail] ++ demo_meeting :: [demo_unreadable]) empty_world
  = demo_process_folder ([demo_mail] ++ [demo_unreadable]) empty_world.
Proof.
  apply (ignored_item_leaves_no_trace final_component no_links demo_zip_open
           never_refuses demo_runtime_dir demo_meeting [demo_mail] [demo_unreadable]
           empty_world).
  left. intros H. vm_compute in H. discriminate H.
Defined.

Lemma demo_log_holds_id :
  bool_decide (s!"id-1" ∈ load_log demo_runtime_dir
                 (files (demo_process_folder [demo_mail] empty_world).2)) = true.
Proof. by vm_compute. Qed.

Lemma logged_item_is_never_reprocessed_witness :
  let w := (demo_process_folder [demo_mail] empty_world).2 in
  demo_process_folder ([demo_meeting] ++ demo_mail :: [demo_unreadable]) w
  = demo_process_folder ([demo_meeting] ++ [demo_unreadable]) w.
Proof.
  intros w.
  apply (logged_item_is_never_reprocessed final_component no_links demo_zip_open
           never_refuses demo_runtime_dir demo_mail s!"id-1" [demo_meeting]
           [demo_unreadable] w).
  - reflexivity.
  - unfold w. exact (proj1 (bool_decide_eq_true _) demo_log_holds_id).
Defined.

Lemma finished_run_leaves_no_marker_witness :
  let body := λ w : World, (Raised, w) in
  let r := single_instance_lock never_refuses demo_runtime_dir (inject_Z 5) body
             empty_world in
  lock r.2 = None
  ∧ ∀ now' body',
      ∃ o', (single_instance_lock refuses_unlink demo_runtime_dir now' body' r.2).1
            = Finished o'.
Proof.
  intros body r.
  by apply (finished_run_leaves_no_marker never_refuses refuses_unlink
              demo_runtime_dir (inject_Z 5) body empty_world r.2 Raised).
Defined.

Lemma turned_away_run_changes_nothing_witness :
  let held := mkWorld ∅ (Some (inject_Z 1000)) [] in
  let r := single_instance_lock never_refuses demo_runtime_dir (inject_Z 1100)
             (demo_process_folder [demo_mail]) held in
  0%Z = 0%Z ∧ files r.2 = files held ∧ lock r.2 = lock held ∧ is_Some (lock held).
Proof.
  intros held r.
  by apply (turned_away_run_changes_nothing never_refuses demo_runtime_dir
              (inject_Z 1100) (demo_process_folder [demo_mail]) held r.2 0).
Defined.

Lemma reply_filter_needs_leading_R_witness :
  search RE_PREFIX s!"  FW: RE: SR12345678" = false.
Proof.
  apply reply_filter_needs_leading_R.
  intros c H. vm_compute in H. injection H as <-. by vm_compute.
Defined.

Lemma short_subject_is_never_accepted_witness :
  triage ∅ (mkMailItem 43 (Some s!"SR1234567") (Some s!"id") [] None)
  ≠ Accepted s!"SR1234567" s!"id".
Proof.
  apply (short_subject_is_never_accepted ∅ _ s!"SR1234567"); [reflexivity|].
  simpl. lia.
Defined.

Lemma extraction_without_links_witness :
  let members := [mkZipInfo s!"a/x.txt" (Bytes s!"1");
                  mkZipInfo s!"b/x.txt" (Bytes s!"2");
                  mkZipInfo s!"b/" (Bytes [])] in
  let named m := is_dir m = false ∧ final_component (filename m) ≠ [] in
  let extracted :=
    extract_all final_component no_links never_refuses ∅ members [s!"d"] in
  let locked := mkZipInfo s!"c/y.txt" (OpenRaises OtherException) in
  let damaged := mkZipInfo s!"c/y.txt" (ReadRaises BadZipFile) in
  let late := mkZipInfo s!"z.txt" (Bytes s!"3") in
  extracted.1 = None
  ∧ size extracted.2 = size (∅ : FS) + length (filter named members)
  ∧ extract_all final_component no_links never_refuses ∅
      (members ++ locked :: [late]) [s!"d"]
    = (Some OtherException, extracted.2)
  ∧ extract_all final_component no_links never_refuses ∅
      (members ++ damaged :: [late]) [s!"d"]
    = (Some BadZipFile,
       <[unique_path extracted.2
           (joinpath [s!"d"]
              (safe_file_name final_component (final_component s!"c/y.txt")))
         := File []]> extracted.2).
Proof.
  intros members named extracted locked damaged late.
  destruct (extraction_without_links final_component no_links never_refuses ∅
              members [s!"d"]) as (Hnone & Hsize & Hstop).
  - done.
  - done.
  - repeat constructor; by eexists.
  - assert (named locked) as Hnamed by (split; [reflexivity|by vm_compute]).
    split; [exact Hnone|]. split; [exact Hsize|]. split.
    + exact (proj1 (Hstop locked [late] OtherException Hnamed) eq_refl).
    + exact (proj2 (Hstop damaged [late] BadZipFile Hnamed) eq_refl).
Defined.

(** Two members with the same base name are both kept. *)
Example members_with_equal_names :
  let members := [mkZipInfo s!"a/x.txt" (Bytes s!"1");
                  mkZipInfo s!"b/x.txt" (Bytes s!"2")] in
  let fs := (extract_all final_component no_links never_refuses ∅ members [s!"d"]).2 in
  fs !! [s!"d"; s!"x.txt"] = Some (File s!"1")
  ∧ fs !! [s!"d"; s!"x_2.txt"] = Some (File s!"2").
Proof. vm_compute. split; exact eq_refl. Qed.
